(** * Propositional logic: semantics, soundness and deduction maneuvers

    A shallow embedding of [propositions/semantics.py],
    [propositions/soundness.py] and [propositions/deduction.py], with the
    properties of their functions proved over it.

    Python exceptions are modelled by the [result] monad, Python dictionaries
    by insertion-ordered association lists ([dict]), Python [frozenset]s of
    inference rules by [gset], and line numbers by [nat]. *)

From stdpp Require Import base decidable option list numbers strings countable gmap sorting.
From Stdlib Require Import ZArith Lia.

Local Open Scope string_scope.
Local Open Scope nat_scope.
Local Open Scope list_scope.

(** ** Exceptions *)

Inductive exn := AssertionError | KeyError | IndexError | ValueError.

Inductive result (A : Type) : Type :=
| Ok (a : A)
| Raise (e : exn).
Arguments Ok {A} a.
Arguments Raise {A} e.

Global Instance result_ret : MRet result := fun A a => Ok a.
Global Instance result_bind : MBind result := fun A B f m =>
  match m with
  | Ok a => f a
  | Raise e => Raise e
  end.

Global Instance result_fmap : FMap result := fun A B f m =>
  match m with
  | Ok a => Ok (f a)
  | Raise e => Raise e
  end.

(** [assert cond] *)
Definition assert (cond : bool) : result unit :=
  if cond then Ok tt else Raise AssertionError.

(** A lookup that raises [e] when the key or index is missing. *)
Definition or_raise {A} (e : exn) (o : option A) : result A :=
  match o with
  | Some a => Ok a
  | None => Raise e
  end.

Global Instance exn_eq_dec : EqDecision exn.
Proof. solve_decision. Defined.

Global Instance result_eq_dec {A} `{EqDecision A} : EqDecision (result A).
Proof. solve_decision. Defined.

(** ** Insertion-ordered dictionaries with string keys *)

Module Dict.

Definition dict (V : Type) : Type := list (string * V).

(** [d.get(k)] *)
Fixpoint get {V} (d : dict V) (k : string) : option V :=
  match d with
  | [] => None
  | (k', v) :: d' => if decide (k' = k) then Some v else get d' k
  end.

(** [d[k] = v]: an existing key keeps its place, a new key goes last. *)
Fixpoint set {V} (d : dict V) (k : string) (v : V) : dict V :=
  match d with
  | [] => [(k, v)]
  | (k', v') :: d' =>
      if decide (k' = k) then (k', v) :: d' else (k', v') :: set d' k v
  end.

(** [d.keys()], in insertion order *)
Definition keys {V} (d : dict V) : list string := d.*1.

End Dict.

Abbreviation dict := Dict.dict.

(** ** Formulas *)

(** Modelled from the spec: [propositions/syntax.py] is not part of the
    sources.  Section 3 of the specification describes a formula as an
    immutable tree whose node is a variable name, a boolean constant, a unary
    node, or a binary node over the operators [&], [|], [->], [+], [<->],
    [-&], [-|], compared structurally. *)
Inductive BinaryOp := And | Or | Implies | Xor | Iff | Nand | Nor.

Inductive Formula : Type :=
| Var (name : string)
| Const (value : bool)
| Not (first : Formula)
| Binary (root : BinaryOp) (first second : Formula).

Global Instance BinaryOp_eq_dec : EqDecision BinaryOp.
Proof. solve_decision. Defined.

Global Instance Formula_eq_dec : EqDecision Formula.
Proof. solve_decision. Defined.

Notation "a ⟶ b" := (Binary Implies a b) (at level 55, right associativity).

Definition BinaryOp_code (op : BinaryOp) : nat :=
  match op with
  | And => 0 | Or => 1 | Implies => 2 | Xor => 3 | Iff => 4 | Nand => 5 | Nor => 6
  end.

Definition BinaryOp_of_code (n : nat) : BinaryOp :=
  match n with
  | 0 => And | 1 => Or | 2 => Implies | 3 => Xor | 4 => Iff | 5 => Nand | _ => Nor
  end.

Fixpoint Formula_to_tree (f : Formula) : gen_tree (string + bool) :=
  match f with
  | Var x => GenLeaf (inl x)
  | Const b => GenLeaf (inr b)
  | Not g => GenNode 0 [Formula_to_tree g]
  | Binary op g h => GenNode (S (BinaryOp_code op)) [Formula_to_tree g; Formula_to_tree h]
  end.

Fixpoint Formula_of_tree (t : gen_tree (string + bool)) : Formula :=
  match t with
  | GenLeaf (inl x) => Var x
  | GenLeaf (inr b) => Const b
  | GenNode 0 [t1] => Not (Formula_of_tree t1)
  | GenNode (S c) [t1; t2] => Binary (BinaryOp_of_code c) (Formula_of_tree t1) (Formula_of_tree t2)
  | GenNode _ _ => Const false
  end.

Lemma Formula_of_to_tree f : Formula_of_tree (Formula_to_tree f) = f.
Proof.
  induction f as [x|b|g IH|op g IHg h IHh]; simpl; try congruence.
  rewrite IHg, IHh. by destruct op.
Qed.

Global Instance Formula_countable : Countable Formula :=
  inj_countable' Formula_to_tree Formula_of_tree Formula_of_to_tree.

(** Modelled from the spec: [is_variable] of [syntax.py]; section 6 of the
    specification gives variable names as a letter followed by digits. *)
Definition is_letter (c : Ascii.ascii) : bool :=
  let n := Ascii.nat_of_ascii c in (97 <=? n) && (n <=? 122).

Definition is_digit (c : Ascii.ascii) : bool :=
  let n := Ascii.nat_of_ascii c in (48 <=? n) && (n <=? 57).

Definition is_variable (s : string) : bool :=
  match s with
  | EmptyString => false
  | String c rest => is_letter c && forallb is_digit (String.list_ascii_of_string rest)
  end.

(** Modelled from the spec: [Formula.variables()] of [syntax.py], the set of
    variable names of a formula. *)
Fixpoint variables (f : Formula) : gset string :=
  match f with
  | Var x => {[ x ]}
  | Const _ => ∅
  | Not g => variables g
  | Binary _ g h => variables g ∪ variables h
  end.

(** The variable names of a formula pass the check that the constructor of
    [Formula] makes on them. *)
Fixpoint well_formed (f : Formula) : bool :=
  match f with
  | Var x => is_variable x
  | Const _ => true
  | Not g => well_formed g
  | Binary _ g h => well_formed g && well_formed h
  end.

(** ** Models and evaluation ([semantics.py]) *)

Abbreviation Model := (dict bool).

(** [is_model], lines 18-32 *)
Definition is_model (model : Model) : bool :=
  forallb is_variable (Dict.keys model).

(** [variables(model)], lines 34-44 *)
Definition model_variables (model : Model) : result (list string) :=
  _ ← assert (is_model model);
  mret (Dict.keys model).

(** [evaluate], lines 46-84.  Both assertions are made again at every
    recursive call, as in the source. *)
Fixpoint evaluate (formula : Formula) (model : Model) : result bool :=
  _ ← assert (is_model model);
  vars ← model_variables model;
  _ ← assert (bool_decide (variables formula ⊆ list_to_set vars));
  match formula with
  | Const value => mret value
  | Var name => or_raise KeyError (Dict.get model name)
  | Not first =>
      b ← evaluate first model;
      mret (negb b)
  | Binary root first second =>
      left ← evaluate first model;
      right ← evaluate second model;
      mret match root with
           | And => left && right
           | Or => left || right
           | Implies => negb left || right
           | Xor => negb (eqb left right)
           | Iff => eqb left right
           | Nand => negb (left && right)
           | Nor => negb (left || right)
           end
  end.

(** [bool(x)] for an integer [x] *)
Definition bool_of_int (x : Z) : bool := negb (x =? 0)%Z.

(** The inner loop of [all_models], lines 110-111: [vs] are the variables
    from position [j] on. *)
Fixpoint fill_model (n : nat) (i : Z) (j : nat) (vs : list string) (model : Model) : Model :=
  match vs with
  | [] => model
  | v :: vs' =>
      fill_model n i (S j) vs'
        (Dict.set model v (bool_of_int (Z.land (Z.shiftr i (Z.of_nat (n - 1 - j))) 1)))
  end.

(** [all_models], lines 86-112; the generator is run to its end. *)
Definition all_models (vars : list string) : result (list Model) :=
  _ ← assert (forallb is_variable vars);
  let n := length vars in
  mret ((fun i => fill_model n i 0 vars []) <$> seqZ 0 (2 ^ Z.of_nat n)).

(** [truth_values], lines 114-131 *)
Fixpoint truth_values (formula : Formula) (models : list Model) : result (list bool) :=
  match models with
  | [] => mret []
  | model :: models' =>
      b ← evaluate formula model;
      bs ← truth_values formula models';
      mret (b :: bs)
  end.

(** [all(f(m) for m in models)] and [any(f(m) for m in models)]: the
    generator expression is consumed up to the first deciding element. *)
Fixpoint py_all {A} (f : A → result bool) (l : list A) : result bool :=
  match l with
  | [] => mret true
  | x :: l' =>
      f x ≫= fun b : bool => if b then py_all f l' else mret false
  end.

Fixpoint py_any {A} (f : A → result bool) (l : list A) : result bool :=
  match l with
  | [] => mret false
  | x :: l' =>
      f x ≫= fun b : bool => if b then mret true else py_any f l'
  end.

(** [is_tautology], lines 162-173 *)
Definition is_tautology (formula : Formula) : result bool :=
  let vars_list := elements (variables formula) in
  models ← all_models vars_list;
  py_all (fun m => evaluate formula m) models.

(** [is_contradiction], lines 175-186 *)
Definition is_contradiction (formula : Formula) : result bool :=
  let vars_list := elements (variables formula) in
  models ← all_models vars_list;
  py_all (fun m => b ← evaluate formula m; mret (negb b)) models.

(** [is_satisfiable], lines 188-199 *)
Definition is_satisfiable (formula : Formula) : result bool :=
  let vars_list := elements (variables formula) in
  models ← all_models vars_list;
  py_any (fun m => evaluate formula m) models.

(** [_synthesize_for_model], lines 201-223.  The first item of the model
    sets [res]; every later one extends the conjunction.  An empty model
    fails the second assertion. *)
Definition atom_of (item : string * bool) : Formula :=
  if item.2 then Var item.1 else Not (Var item.1).

Definition synthesize_for_model (model : Model) : result Formula :=
  _ ← assert (is_model model);
  match model with
  | [] => Raise AssertionError
  | item :: items =>
      mret (foldl (fun res it => Binary And res (atom_of it)) (atom_of item) items)
  end.

(** The loop of [synthesize], lines 250-253, over [zip(models, values)]. *)
Fixpoint synthesize_clauses (pairs : list (Model * bool)) : result (list Formula) :=
  match pairs with
  | [] => mret []
  | (model, val) :: pairs' =>
      if val then
        clause ← synthesize_for_model model;
        clauses ← synthesize_clauses pairs';
        mret (clause :: clauses)
      else synthesize_clauses pairs'
  end.

(** [synthesize], lines 225-261 *)
Definition synthesize (vars : list string) (values : list bool) : result Formula :=
  _ ← assert (0 <? length vars);
  models ← all_models vars;
  clauses ← synthesize_clauses (zip models values);
  match clauses with
  | [] =>
      v ← or_raise IndexError (vars !! 0);
      mret (Binary And (Var v) (Not (Var v)))
  | clause :: clauses' => mret (foldl (Binary Or) clause clauses')
  end.

(** ** Inference rules *)

(** Modelled from the spec: the class [InferenceRule] of
    [propositions/proofs.py], which is not part of the sources: an ordered
    sequence of assumption formulas and one conclusion formula (section 3). *)
Record InferenceRule : Type := mkInferenceRule {
  assumptions : list Formula;
  conclusion : Formula
}.

Global Instance InferenceRule_eq_dec : EqDecision InferenceRule.
Proof. solve_decision. Defined.

Global Instance InferenceRule_countable : Countable InferenceRule :=
  inj_countable' (fun r => (assumptions r, conclusion r))
                 (fun p => mkInferenceRule p.1 p.2)
                 (fun r => match r with mkInferenceRule _ _ => eq_refl end).

(** All formulas of a rule: the assumptions in order, then the conclusion. *)
Definition rule_formulas (rule : InferenceRule) : list Formula :=
  assumptions rule ++ [conclusion rule].

(** Modelled from the spec: [InferenceRule.variables()]. *)
Definition rule_variables (rule : InferenceRule) : gset string :=
  ⋃ (variables <$> rule_formulas rule).

(** Modelled from the spec: applying a variable-to-formula substitution
    mapping uniformly to a formula and to a rule (section 3); a variable the
    mapping does not mention stays. *)
Fixpoint substitute_variables (substitution_map : dict Formula) (f : Formula) : Formula :=
  match f with
  | Var x => default (Var x) (Dict.get substitution_map x)
  | Const b => Const b
  | Not g => Not (substitute_variables substitution_map g)
  | Binary op g h =>
      Binary op (substitute_variables substitution_map g)
                (substitute_variables substitution_map h)
  end.

Definition specialize (rule : InferenceRule) (specialization_map : dict Formula) : InferenceRule :=
  mkInferenceRule (substitute_variables specialization_map <$> assumptions rule)
                  (substitute_variables specialization_map (conclusion rule)).

(** Modelled from the spec: rule S is a specialization of rule G if there
    exists a substitution mapping that, applied uniformly to every formula in
    G, yields exactly the formulas in S (section 3). *)
Definition specialization_of (specialization general : InferenceRule) : Prop :=
  ∃ specialization_map : dict Formula, specialize general specialization_map = specialization.

(** Modelled from the spec: [InferenceRule.specialization_map], the mapping
    that witnesses a specialization, computed by matching the formulas of the
    general rule against those of the candidate from left to right; a
    variable met again must be matched by the same formula. *)
Fixpoint formula_specialization_map (general specialization : Formula)
    (acc : dict Formula) : option (dict Formula) :=
  match general, specialization with
  | Var x, _ =>
      match Dict.get acc x with
      | Some f => if decide (f = specialization) then Some acc else None
      | None => Some (Dict.set acc x specialization)
      end
  | Const b, Const b' => if decide (b = b') then Some acc else None
  | Not g, Not s => formula_specialization_map g s acc
  | Binary op g1 g2, Binary op' s1 s2 =>
      if decide (op = op') then
        acc' ← formula_specialization_map g1 s1 acc;
        formula_specialization_map g2 s2 acc'
      else None
  | _, _ => None
  end.

Fixpoint formulas_specialization_map (general specialization : list Formula)
    (acc : dict Formula) : option (dict Formula) :=
  match general, specialization with
  | [], [] => Some acc
  | g :: general', s :: specialization' =>
      acc' ← formula_specialization_map g s acc;
      formulas_specialization_map general' specialization' acc'
  | _, _ => None
  end.

Definition specialization_map (general specialization : InferenceRule) : option (dict Formula) :=
  formulas_specialization_map (rule_formulas general) (rule_formulas specialization) [].

(** Modelled from the spec: [specialization.is_specialization_of(general)]. *)
Definition is_specialization_of (specialization general : InferenceRule) : bool :=
  bool_decide (is_Some (specialization_map general specialization)).

(** ** Proofs *)

(** Modelled from the spec: the classes [Proof.Line] and [Proof] of
    [propositions/proofs.py] (section 3): a line is an assumption line, with
    a formula only, or a derived line with a formula, a rule and the numbers
    of the lines the rule is applied to. *)
Inductive Line : Type :=
| AssumptionLine (formula : Formula)
| DerivedLine (formula : Formula) (rule : InferenceRule) (assumptions : list nat).

Definition formula (line : Line) : Formula :=
  match line with
  | AssumptionLine f => f
  | DerivedLine f _ _ => f
  end.

Definition is_assumption (line : Line) : bool :=
  match line with
  | AssumptionLine _ => true
  | DerivedLine _ _ _ => false
  end.

Global Instance Line_eq_dec : EqDecision Line.
Proof. solve_decision. Defined.

Record Proof : Type := mkProof {
  statement : InferenceRule;
  rules : gset InferenceRule;
  lines : list Line
}.

(** Modelled from the spec: [Proof.rule_for_line]: the rule a derived line
    claims to be an instance of, whose assumptions are the formulas at the
    referenced lines, in order (section 3).  [None] for an assumption line. *)
Definition rule_for_line (proof : Proof) (line_number : nat) : result (option InferenceRule) :=
  line ← or_raise AssertionError (lines proof !! line_number);
  match line with
  | AssumptionLine _ => mret None
  | DerivedLine f _ refs =>
      premises ← or_raise IndexError (mapM (fun a => formula <$> lines proof !! a) refs);
      mret (Some (mkInferenceRule premises f))
  end.

(** Modelled from the spec: [Proof.is_line_valid] and [Proof.is_valid]
    (section 3): an assumption line carries one of the assumptions of the
    statement; a derived line uses one of the permitted rules, refers to
    earlier lines only, and is a specialization of its rule; the last line
    carries the conclusion of the statement. *)
Definition is_line_valid (proof : Proof) (line_number : nat) : bool :=
  match lines proof !! line_number with
  | None => false
  | Some (AssumptionLine f) => bool_decide (f ∈ assumptions (statement proof))
  | Some (DerivedLine f rule refs) =>
      bool_decide (rule ∈ rules proof)
      && forallb (fun a => a <? line_number) refs
      && match rule_for_line proof line_number with
         | Ok (Some instance) => is_specialization_of instance rule
         | _ => false
         end
  end.

Definition is_valid (proof : Proof) : bool :=
  bool_decide (formula <$> last (lines proof) = Some (conclusion (statement proof)))
  && forallb (is_line_valid proof) (seq 0 (length (lines proof))).

(** ** The axiomatic system *)

(** Modelled from the spec: the rules of [propositions/axiomatic_systems.py],
    which is not part of the sources, with the conclusions that section 6 of
    the specification lists. *)
Definition MP : InferenceRule :=
  mkInferenceRule [Var "p"; Var "p" ⟶ Var "q"] (Var "q").

Definition I0 : InferenceRule :=
  mkInferenceRule [] (Var "p" ⟶ Var "p").

Definition I1 : InferenceRule :=
  mkInferenceRule [] (Var "p" ⟶ (Var "q" ⟶ Var "p")).

Definition D : InferenceRule :=
  mkInferenceRule []
    ((Var "p" ⟶ (Var "q" ⟶ Var "r")) ⟶ ((Var "p" ⟶ Var "q") ⟶ (Var "p" ⟶ Var "r"))).

Definition I2 : InferenceRule :=
  mkInferenceRule [] (Not (Var "p") ⟶ (Var "p" ⟶ Var "q")).

Definition N : InferenceRule :=
  mkInferenceRule [] ((Not (Var "p") ⟶ Not (Var "q")) ⟶ (Var "q" ⟶ Var "p")).

(** ** Inference rules in a model ([semantics.py], lines 304-337) *)

(** [evaluate_inference], lines 304-325: after the assertion the body ends,
    so the call returns Python's [None], here [None : option bool]. *)
Definition evaluate_inference (rule : InferenceRule) (model : Model) : result (option bool) :=
  _ ← assert (is_model model);
  mret None.

(** [is_sound_inference], lines 327-337: the body is the docstring alone. *)
Definition is_sound_inference (rule : InferenceRule) : result (option bool) :=
  mret None.

(** Truth value of a returned object: [None] is false. *)
Definition truthy (v : option bool) : bool := default false v.

(** ** Soundness ([soundness.py]) *)

(** The loop of lines 35-37 over the variables [vars] of the general rule. *)
Fixpoint new_model_loop (spec_map : dict Formula) (model : Model)
    (vars : list string) (new_model : Model) : result Model :=
  match vars with
  | [] => mret new_model
  | var :: vars' =>
      formula_to_eval ← or_raise KeyError (Dict.get spec_map var);
      b ← evaluate formula_to_eval model;
      new_model_loop spec_map model vars' (Dict.set new_model var b)
  end.

(** [rule_nonsoundness_from_specialization_nonsoundness], lines 15-38.  The
    set of variables of the general rule is walked in the order of
    [elements]. *)
Definition rule_nonsoundness_from_specialization_nonsoundness
    (general specialization : InferenceRule) (model : Model) : result Model :=
  _ ← assert (is_specialization_of specialization general);
  holds ← evaluate_inference specialization model;
  _ ← assert (negb (truthy holds));
  spec_map ← or_raise KeyError (specialization_map general specialization);
  new_model_loop spec_map model (elements (rule_variables general)) [].

(** [proof.lines.index(line)]: the first position of a line equal to [line]. *)
Fixpoint index_of (line : Line) (lines : list Line) : option nat :=
  match lines with
  | [] => None
  | line' :: lines' =>
      if decide (line' = line) then Some 0 else S <$> index_of line lines'
  end.

(** The loop of [nonsound_rule_of_nonsound_proof], lines 58-68, over the
    lines still to visit.  Leaving the loop without [return] makes the call
    return Python's [None]. *)
Fixpoint nonsound_rule_loop (proof : Proof) (model : Model) (todo : list Line)
    : result (option (InferenceRule * Model)) :=
  match todo with
  | [] => mret None
  | line :: todo' =>
      evaluate (formula line) model ≫= fun is_true : bool =>
      match line with
      | AssumptionLine _ =>
          _ ← assert is_true;
          nonsound_rule_loop proof model todo'
      | DerivedLine _ general_rule _ =>
          if negb is_true then
            idx ← or_raise ValueError (index_of line (lines proof));
            instance ← rule_for_line proof idx;
            specialization ← or_raise AssertionError instance;
            bad_model ← rule_nonsoundness_from_specialization_nonsoundness
                          general_rule specialization model;
            mret (Some (general_rule, bad_model))
          else nonsound_rule_loop proof model todo'
      end
  end.

(** [nonsound_rule_of_nonsound_proof], lines 40-68 *)
Definition nonsound_rule_of_nonsound_proof (proof : Proof) (model : Model)
    : result (option (InferenceRule * Model)) :=
  _ ← assert (is_valid proof);
  holds ← evaluate_inference (statement proof) model;
  _ ← assert (negb (truthy holds));
  nonsound_rule_loop proof model (lines proof).

(** ** Proof maneuvers ([deduction.py]) *)

(** [prove_corollary], lines 13-43 *)
Definition prove_corollary (antecedent_proof : Proof) (consequent : Formula)
    (conditional : InferenceRule) : result Proof :=
  _ ← assert (is_valid antecedent_proof);
  _ ← assert (is_specialization_of
                (mkInferenceRule [] (conclusion (statement antecedent_proof) ⟶ consequent))
                conditional);
  let antecedent := conclusion (statement antecedent_proof) in
  let new_lines := lines antecedent_proof in
  let new_lines := new_lines ++ [DerivedLine (antecedent ⟶ consequent) conditional []] in
  let new_lines :=
    new_lines ++ [DerivedLine consequent MP [length new_lines - 2; length new_lines - 1]] in
  mret (mkProof (mkInferenceRule (assumptions (statement antecedent_proof)) consequent)
                (rules antecedent_proof ∪ {[ MP; conditional ]})
                new_lines).

(** One turn of the loop of [combine_proofs], lines 83-88. *)
Definition shift_line (shift : nat) (line : Line) : Line :=
  match line with
  | AssumptionLine _ => line
  | DerivedLine f rule refs => DerivedLine f rule ((fun a => a + shift) <$> refs)
  end.

(** [combine_proofs], lines 45-98 *)
Definition combine_proofs (antecedent1_proof antecedent2_proof : Proof)
    (consequent : Formula) (double_conditional : InferenceRule) : result Proof :=
  _ ← assert (is_valid antecedent1_proof);
  _ ← assert (is_valid antecedent2_proof);
  _ ← assert (bool_decide (assumptions (statement antecedent1_proof)
                           = assumptions (statement antecedent2_proof)));
  _ ← assert (bool_decide (rules antecedent1_proof = rules antecedent2_proof));
  _ ← assert (is_specialization_of
                (mkInferenceRule []
                   (conclusion (statement antecedent1_proof)
                    ⟶ (conclusion (statement antecedent2_proof) ⟶ consequent)))
                double_conditional);
  let a1 := conclusion (statement antecedent1_proof) in
  let a2 := conclusion (statement antecedent2_proof) in
  let new_lines := lines antecedent1_proof in
  let shift := length new_lines in
  let new_lines := new_lines ++ (shift_line shift <$> lines antecedent2_proof) in
  let idx_a1 := shift - 1 in
  let idx_a2 := length new_lines - 1 in
  let axiom_formula := a1 ⟶ (a2 ⟶ consequent) in
  let new_lines := new_lines ++ [DerivedLine axiom_formula double_conditional []] in
  let idx_axiom := length new_lines - 1 in
  let new_lines := new_lines ++ [DerivedLine (a2 ⟶ consequent) MP [idx_a1; idx_axiom]] in
  let idx_intermediate := length new_lines - 1 in
  let new_lines := new_lines ++ [DerivedLine consequent MP [idx_a2; idx_intermediate]] in
  mret (mkProof (mkInferenceRule (assumptions (statement antecedent1_proof)) consequent)
                (rules antecedent1_proof ∪ {[ MP; double_conditional ]})
                new_lines).

(** The precondition on the rules of [remove_assumption] and
    [prove_by_way_of_contradiction], lines 122-123 and 217-218. *)
Definition rule_allowed (rule : InferenceRule) : bool :=
  bool_decide (rule = MP) || bool_decide (length (assumptions rule) = 0).

(** The test of line 148 on a line that is not the removed assumption. *)
Definition is_direct (line : Line) : bool :=
  is_assumption line
  || match line with
     | DerivedLine _ rule _ => bool_decide (length (assumptions rule) = 0)
     | AssumptionLine _ => false
     end.

(** One turn of the second loop of [remove_assumption], lines 144-161: the
    lines that line [i] of the proof adds to [new_lines], and the entry it
    adds to [mapping]. *)
Definition remove_assumption_step (proof : Proof) (psi : Formula)
    (i : nat) (line : Line) (new_lines : list Line) (mapping : gmap nat nat)
    : result (list Line * gmap nat nat) :=
  let phi_i := formula line in
  new_lines ←
    (if bool_decide (phi_i = psi) && is_assumption line then
       mret (new_lines ++ [DerivedLine (psi ⟶ psi) I0 []])
     else if is_direct line then
       let new_lines := new_lines ++ [line] in
       let new_lines := new_lines ++ [DerivedLine (phi_i ⟶ (psi ⟶ phi_i)) I1 []] in
       mret (new_lines
               ++ [DerivedLine (psi ⟶ phi_i) MP [length new_lines - 2; length new_lines - 1]])
     else
       match line with
       | DerivedLine _ _ [j; k] =>
           line_j ← or_raise IndexError (lines proof !! j);
           let phi_j := formula line_j in
           let new_lines :=
             new_lines
               ++ [DerivedLine ((psi ⟶ (phi_j ⟶ phi_i)) ⟶ ((psi ⟶ phi_j) ⟶ (psi ⟶ phi_i))) D []] in
           mapping_k ← or_raise KeyError (mapping !! k);
           let new_lines :=
             new_lines
               ++ [DerivedLine ((psi ⟶ phi_j) ⟶ (psi ⟶ phi_i)) MP
                     [mapping_k; length new_lines - 1]] in
           mapping_j ← or_raise KeyError (mapping !! j);
           mret (new_lines
                   ++ [DerivedLine (psi ⟶ phi_i) MP [mapping_j; length new_lines - 1]])
       | _ => Raise ValueError
       end);
  mret (new_lines, <[ i := length new_lines - 1 ]> mapping).

Fixpoint remove_assumption_loop (proof : Proof) (psi : Formula)
    (i : nat) (todo : list Line) (new_lines : list Line) (mapping : gmap nat nat)
    : result (list Line) :=
  match todo with
  | [] => mret new_lines
  | line :: todo' =>
      st ← remove_assumption_step proof psi i line new_lines mapping;
      remove_assumption_loop proof psi (S i) todo' st.1 st.2
  end.

(** [remove_assumption], lines 100-163.  The list that the first loop, lines
    127-141, builds is dropped by line 143 before any use, and that loop
    raises nothing; the lines of the result are those of the second loop. *)
Definition remove_assumption (proof : Proof) : result Proof :=
  _ ← assert (is_valid proof);
  _ ← assert (0 <? length (assumptions (statement proof)));
  _ ← assert (forallb rule_allowed (elements (rules proof)));
  let gamma := take (length (assumptions (statement proof)) - 1) (assumptions (statement proof)) in
  psi ← or_raise IndexError (last (assumptions (statement proof)));
  new_lines ← remove_assumption_loop proof psi 0 (lines proof) [] ∅;
  mret (mkProof (mkInferenceRule gamma (psi ⟶ conclusion (statement proof)))
                (rules proof ∪ {[ MP; I0; I1; D ]})
                new_lines).

(** [prove_from_opposites], lines 165-191 *)
Definition prove_from_opposites (proof_of_affirmation proof_of_negation : Proof)
    (conclusion' : Formula) : result Proof :=
  _ ← assert (is_valid proof_of_affirmation);
  _ ← assert (is_valid proof_of_negation);
  _ ← assert (bool_decide (assumptions (statement proof_of_affirmation)
                           = assumptions (statement proof_of_negation)));
  _ ← assert (bool_decide (Not (conclusion (statement proof_of_affirmation))
                           = conclusion (statement proof_of_negation)));
  _ ← assert (bool_decide (rules proof_of_affirmation = rules proof_of_negation));
  combine_proofs proof_of_negation proof_of_affirmation conclusion' I2.

(** [prove_by_way_of_contradiction], lines 193-235 *)
Definition prove_by_way_of_contradiction (proof : Proof) : result Proof :=
  _ ← assert (is_valid proof);
  _ ← assert (bool_decide (conclusion (statement proof) = Not (Var "p" ⟶ Var "p")));
  _ ← assert (0 <? length (assumptions (statement proof)));
  last_assumption ← or_raise IndexError (last (assumptions (statement proof)));
  match last_assumption with
  | Not phi =>
      _ ← assert (forallb rule_allowed (elements (rules proof)));
      proof_with_removed ← remove_assumption proof;
      let new_lines := lines proof_with_removed in
      let idx_removed_phi := length new_lines - 1 in
      let f_p_p := Var "p" ⟶ Var "p" in
      let n_specialization := (Not phi ⟶ Not f_p_p) ⟶ (f_p_p ⟶ phi) in
      let new_lines := new_lines ++ [DerivedLine n_specialization N []] in
      let idx_n_axiom := length new_lines - 1 in
      let new_lines :=
        new_lines ++ [DerivedLine (f_p_p ⟶ phi) MP [idx_removed_phi; idx_n_axiom]] in
      let idx_cond_phi := length new_lines - 1 in
      let new_lines := new_lines ++ [DerivedLine f_p_p I0 []] in
      let idx_p_p := length new_lines - 1 in
      let new_lines := new_lines ++ [DerivedLine phi MP [idx_p_p; idx_cond_phi]] in
      mret (mkProof (mkInferenceRule (assumptions (statement proof_with_removed)) phi)
                    (rules proof_with_removed ∪ {[ MP; I0; I1; D; N ]})
                    new_lines)
  | _ => Raise AssertionError
  end.

(** ** Auxiliary notions for the properties below *)

(** [acc] is [σ] restricted to some of its variables. *)
Definition agrees (acc σ : dict Formula) : Prop :=
  ∀ x f, Dict.get acc x = Some f → substitute_variables σ (Var x) = f.

(** [m] binds everything [acc] binds, to the same formulas. *)
Definition extends (m acc : dict Formula) : Prop :=
  ∀ x f, Dict.get acc x = Some f → Dict.get m x = Some f.

Definition covers (m : dict Formula) (g : Formula) : Prop :=
  ∀ x, x ∈ variables g → is_Some (Dict.get m x).


(** What [is_line_valid] checks of line [i], as a proposition over the
    assumptions [A], the rules [R] and the lines [L] of a proof. *)
Definition line_ok (A : list Formula) (R : gset InferenceRule) (L : list Line)
    (i : nat) (line : Line) : Prop :=
  match line with
  | AssumptionLine f => f ∈ A
  | DerivedLine f rule refs =>
      rule ∈ R
      ∧ Forall (fun a => a < i) refs
      ∧ ∃ premises,
          mapM (fun a => formula <$> L !! a) refs = Some premises
          ∧ specialization_of (mkInferenceRule premises f) rule
  end.

Definition lines_ok (A : list Formula) (R : gset InferenceRule) (L : list Line) : Prop :=
  ∀ i line, L !! i = Some line → line_ok A R L i line.

(** Every line number a derived line refers to is below its own. *)
Definition acyclic (L : list Line) : Prop :=
  ∀ i f rule refs a,
    L !! i = Some (DerivedLine f rule refs) → a ∈ refs → a < i.

(** The invariant of the second loop of [remove_assumption] when the lines
    [0 .. i-1] of the lines [L] have been visited: the new lines [NL] are
    valid from the assumptions [A] by the rules [R]; [mapping] sends every
    visited line to a new line that proves [psi ⟶] its formula; and the last
    new line is the one for the line visited last. *)
Record remove_assumption_inv (L : list Line) (psi : Formula) (A : list Formula)
    (R : gset InferenceRule) (i : nat) (NL : list Line) (mapping : gmap nat nat) : Prop := {
  inv_ok : lines_ok A R NL;
  inv_mapping : ∀ j line, j < i → L !! j = Some line →
    ∃ m, mapping !! j = Some m ∧ formula <$> NL !! m = Some (psi ⟶ formula line);
  inv_last : ∀ line, 0 < i → L !! (i - 1) = Some line →
    formula <$> last NL = Some (psi ⟶ formula line)
}.

(** ** Sample proofs *)

(** An assumptionless rule with conclusion [(~q->~(p->p))]. *)
Definition sample_rule : InferenceRule :=
  mkInferenceRule [] (Not (Var "q") ⟶ Not (Var "p" ⟶ Var "p")).

(** A proof of [~(p->p)] from the assumption [~q]: the assumption, an
    instance of [sample_rule], and Modus Ponens. *)
Definition sample_proof : Proof :=
  mkProof (mkInferenceRule [Not (Var "q")] (Not (Var "p" ⟶ Var "p")))
          {[ MP; sample_rule ]}
          [AssumptionLine (Not (Var "q"));
           DerivedLine (Not (Var "q") ⟶ Not (Var "p" ⟶ Var "p")) sample_rule [];
           DerivedLine (Not (Var "p" ⟶ Var "p")) MP [0; 1]].

(** A proof of [q] from the assumption [~q] by an assumptionless rule with
    conclusion [q], and a proof of its negation from the same rules. *)
Definition affirmation_rule : InferenceRule := mkInferenceRule [] (Var "q").

Definition affirmation_proof : Proof :=
  mkProof (mkInferenceRule [Not (Var "q")] (Var "q"))
          {[ affirmation_rule ]}
          [DerivedLine (Var "q") affirmation_rule []].

(** A proof of [~q] from the assumption [~q]. *)
Definition negation_proof : Proof :=
  mkProof (mkInferenceRule [Not (Var "q")] (Not (Var "q")))
          {[ affirmation_rule ]}
          [AssumptionLine (Not (Var "q"))].

(** ** Orders on truth assignments *)

(** The truth values that model number [i] of [all_models] gives to [n]
    variables, first variable first. *)
Definition bits (n : nat) (i : Z) : list bool :=
  (fun j => Z.testbit i (Z.of_nat (n - 1 - j))) <$> seq 0 n.

(** Lexicographic order on assignments of the same length: the first
    position counts most, and [false] precedes [true]. *)
Fixpoint lex_lt (u v : list bool) : Prop :=
  match u, v with
  | x :: u', y :: v' => (x = false ∧ y = true) ∨ (x = y ∧ lex_lt u' v')
  | _, _ => False
  end.

(** All assignments to [n] variables, listed in lexicographic order: those
    that make the first variable false, then those that make it true. *)
Fixpoint all_assignments (n : nat) : list (list bool) :=
  match n with
  | 0 => [[]]
  | S n' => (cons false <$> all_assignments n') ++ (cons true <$> all_assignments n')
  end.

(** The truth value of a formula in a model that gives a value to each of
    its variables; a variable without a value counts as false. *)
Fixpoint holds (model : Model) (f : Formula) : bool :=
  match f with
  | Var x => default false (Dict.get model x)
  | Const b => b
  | Not g => negb (holds model g)
  | Binary op g h =>
      let left := holds model g in
      let right := holds model h in
      match op with
      | And => left && right
      | Or => left || right
      | Implies => negb left || right
      | Xor => negb (eqb left right)
      | Iff => eqb left right
      | Nand => negb (left && right)
      | Nor => negb (left || right)
      end
  end.

(** The model gives a value to every variable of the formula. *)
Definition model_covers (model : Model) (f : Formula) : Prop :=
  variables f ⊆ list_to_set (Dict.keys model).

Global Instance model_covers_dec model f : Decision (model_covers model f).
Proof. unfold model_covers. apply _. Defined.

(** The conjunctive clause that [_synthesize_for_model] builds for a
    nonempty model. *)
Definition clause_of (model : Model) : Formula :=
  match model with
  | [] => Const true
  | item :: items => foldl (fun res it => Binary And res (atom_of it)) (atom_of item) items
  end.

(** The models that [synthesize] builds a clause for: those paired with
    [True]. *)
Fixpoint selected (pairs : list (Model * bool)) : list Model :=
  match pairs with
  | [] => []
  | (model, val) :: pairs' => if val then model :: selected pairs' else selected pairs'
  end.

(** The model gives the item's variable the item's value. *)
Definition agrees_on (model : Model) (item : string * bool) : bool :=
  eqb (default false (Dict.get model item.1)) item.2.

(** The model that the loop of
    [rule_nonsoundness_from_specialization_nonsoundness] builds when nothing
    is raised: each variable gets the truth value, in [model], of the formula
    that [spec_map] puts in its place. *)
Definition new_model_of (spec_map : dict Formula) (model : Model)
    (vars : list string) (new_model : Model) : Model :=
  foldl (fun nm var => Dict.set nm var (holds model (substitute_variables spec_map (Var var))))
        new_model vars.

(** The rule holds in the model: not all of its assumptions are true, or its
    conclusion is. *)
Definition rule_holds (model : Model) (rule : InferenceRule) : bool :=
  negb (forallb (holds model) (assumptions rule)) || holds model (conclusion rule).

(** An assumptionless rule with conclusion [q], which is not sound, and a
    valid proof of [q] by it whose first line, an instance [(x->x)] of [I0],
    has a variable that the statement does not have. *)
Definition unsound_rule : InferenceRule := mkInferenceRule [] (Var "q").

Definition unsound_proof : Proof :=
  mkProof (mkInferenceRule [] (Var "q"))
          {[ I0; unsound_rule ]}
          [DerivedLine (Var "x" ⟶ Var "x") I0 [];
           DerivedLine (Var "q") unsound_rule []].

(** A rule with an assumption, from [p] to [q], which is not sound, and a
    valid proof of [y] from [x] by it. *)
Definition jump_rule : InferenceRule := mkInferenceRule [Var "p"] (Var "q").

Definition jump_proof : Proof :=
  mkProof (mkInferenceRule [Var "x"] (Var "y"))
          {[ jump_rule ]}
          [AssumptionLine (Var "x");
           DerivedLine (Var "y") jump_rule [0]].

(** A valid proof of [q] by [unsound_rule] that has the line [q] twice, with
    the instance [(x->x)] of [I0] in between. *)
Definition repeated_proof : Proof :=
  mkProof (mkInferenceRule [] (Var "q"))
          {[ I0; unsound_rule ]}
          [DerivedLine (Var "q") unsound_rule [];
           DerivedLine (Var "x" ⟶ Var "x") I0 [];
           DerivedLine (Var "q") unsound_rule []].

(** ** Disjunctive normal form *)

(** A variable or a negated variable. *)
Definition is_literal (f : Formula) : bool :=
  match f with
  | Var _ | Not (Var _) => true
  | _ => false
  end.

(** A conjunction of literals, nested to the left. *)
Fixpoint is_conjunctive_clause (f : Formula) : bool :=
  match f with
  | Binary And g h => is_conjunctive_clause g && is_literal h
  | _ => is_literal f
  end.

(** A disjunction of conjunctive clauses, nested to the left. *)
Fixpoint is_dnf (f : Formula) : bool :=
  match f with
  | Binary Or g h => is_dnf g && is_conjunctive_clause h
  | _ => is_conjunctive_clause f
  end.

(** * Properties *)

(** Equal lists of lines whose line numbers are written differently. *)
Ltac same_lines := repeat first [reflexivity | lia | progress f_equal].

(** ** The exception monad *)

Lemma assert_true_bind {B} (c : bool) (f : unit → result B) :
  c = true → assert c ≫= f = f tt.
Proof. by intros ->. Qed.

(** ** Dictionaries *)

Lemma get_set_eq {V} (d : dict V) k v : Dict.get (Dict.set d k v) k = Some v.
Proof.
  induction d as [|[k' v'] d IH]; simpl.
  - by rewrite decide_True.
  - destruct (decide (k' = k)) as [->|Hne]; simpl.
    + by rewrite decide_True.
    + by rewrite decide_False.
Qed.

Lemma get_set_ne {V} (d : dict V) k k' v :
  k ≠ k' → Dict.get (Dict.set d k v) k' = Dict.get d k'.
Proof.
  intros Hne. induction d as [|[k0 v0] d IH]; simpl.
  - by rewrite decide_False.
  - destruct (decide (k0 = k)) as [->|Hne0]; simpl.
    + by rewrite !decide_False.
    + by rewrite IH.
Qed.

Lemma get_set {V} (d : dict V) k k' v :
  Dict.get (Dict.set d k v) k' = if decide (k = k') then Some v else Dict.get d k'.
Proof.
  destruct (decide (k = k')) as [->|Hne]; [apply get_set_eq | by apply get_set_ne].
Qed.

Lemma get_Some_keys {V} (d : dict V) k : is_Some (Dict.get d k) ↔ k ∈ Dict.keys d.
Proof.
  unfold Dict.keys. induction d as [|[k' v'] d IH]; simpl.
  - rewrite elem_of_nil. split; [by intros [? ?] | done].
  - rewrite elem_of_cons. destruct (decide (k' = k)) as [->|Hne].
    + split; eauto.
    + rewrite IH. split; [by right|]. by intros [?|?].
Qed.

Lemma keys_set_new {V} (d : dict V) k v :
  k ∉ Dict.keys d → Dict.set d k v = d ++ [(k, v)].
Proof.
  unfold Dict.keys. induction d as [|[k' v'] d IH]; simpl; [done|].
  rewrite not_elem_of_cons. intros [Hne Hnin].
  rewrite decide_False by done. by rewrite IH.
Qed.

(** ** Specializations: the matching procedure decides the definition *)

Lemma extends_refl m : extends m m.
Proof. by intros x f. Qed.

Lemma extends_trans m1 m2 m3 : extends m1 m2 → extends m2 m3 → extends m1 m3.
Proof. intros H12 H23 x f H. by apply H12, H23. Qed.

Lemma extends_set acc x f : Dict.get acc x = None → extends (Dict.set acc x f) acc.
Proof.
  intros Hx y g Hy. rewrite get_set_ne; [done|]. congruence.
Qed.

Lemma substitute_extends m m' g :
  extends m' m → covers m g → substitute_variables m' g = substitute_variables m g.
Proof.
  intros Hext. induction g as [x|b|g IH|op g IHg h IHh]; simpl; intros Hcov.
  - destruct (Hcov x) as [f Hf]; [set_solver|]. by rewrite Hf, (Hext _ _ Hf).
  - done.
  - by rewrite IH.
  - rewrite IHg, IHh; [done| |]; intros x Hx; apply Hcov; simpl; set_solver.
Qed.

Lemma covers_extends m m' g : extends m' m → covers m g → covers m' g.
Proof.
  intros Hext Hcov x Hx. destruct (Hcov x Hx) as [f Hf]. exists f. by apply Hext.
Qed.

Lemma formula_specialization_map_sound g : ∀ s acc m,
  formula_specialization_map g s acc = Some m →
  extends m acc ∧ covers m g ∧ substitute_variables m g = s.
Proof.
  induction g as [x|b|g IH|op g IHg h IHh]; intros s acc m; simpl.
  - destruct (Dict.get acc x) as [f|] eqn:Hx.
    + case_decide as Hf; [|done]. intros [= <-]. subst f.
      split_and!; [apply extends_refl| |by rewrite Hx].
      intros y Hy. simpl in Hy. apply elem_of_singleton in Hy as ->. by rewrite Hx.
    + intros [= <-]. split_and!; [by apply extends_set| |by rewrite get_set_eq].
      intros y Hy. simpl in Hy. apply elem_of_singleton in Hy as ->. by rewrite get_set_eq.
  - destruct s as [|b'| |]; try done. case_decide as Hb; [|done].
    intros [= <-]. subst b'. split_and!; [apply extends_refl| |done].
    intros y Hy. set_solver.
  - destruct s as [| |s|]; try done. intros Hm.
    destruct (IH _ _ _ Hm) as (Hext & Hcov & Hsub). by rewrite Hsub.
  - destruct s as [| | |op' s1 s2]; try done. case_decide as Hop; [|done]. subst op'.
    destruct (formula_specialization_map g s1 acc) as [acc'|] eqn:H1; [|done].
    simpl. intros H2.
    destruct (IHg _ _ _ H1) as (Hext1 & Hcov1 & Hsub1).
    destruct (IHh _ _ _ H2) as (Hext2 & Hcov2 & Hsub2).
    split_and!.
    + by eapply extends_trans.
    + intros x Hx. apply elem_of_union in Hx as [Hx|Hx]; [|by apply Hcov2].
      by apply (covers_extends acc' m g).
    + by rewrite (substitute_extends acc' m g), Hsub1, Hsub2.
Qed.

Lemma formula_specialization_map_complete σ g : ∀ acc,
  agrees acc σ →
  ∃ m, formula_specialization_map g (substitute_variables σ g) acc = Some m ∧ agrees m σ.
Proof.
  induction g as [x|b|g IH|op g IHg h IHh]; intros acc Hacc.
  - cbn [formula_specialization_map].
    destruct (Dict.get acc x) as [f|] eqn:Hx.
    + rewrite decide_True by (symmetry; by apply Hacc). by exists acc.
    + eexists; split; [done|]. intros y f. rewrite get_set.
      case_decide as Hy; [|by apply Hacc]. subst y. by intros [= <-].
  - simpl. rewrite decide_True by done. by exists acc.
  - simpl. by apply IH.
  - simpl. rewrite decide_True by done.
    destruct (IHg acc Hacc) as (acc' & -> & Hacc'). simpl. by apply IHh.
Qed.

Lemma formulas_specialization_map_sound gs : ∀ ss acc m,
  formulas_specialization_map gs ss acc = Some m →
  extends m acc ∧ Forall (covers m) gs ∧ substitute_variables m <$> gs = ss.
Proof.
  induction gs as [|g gs IH]; intros [|s ss] acc m; simpl; try done.
  - intros [= <-]. split_and!; [apply extends_refl|done..].
  - destruct (formula_specialization_map g s acc) as [acc'|] eqn:Hg; [|done]. simpl.
    intros Hgs.
    destruct (formula_specialization_map_sound _ _ _ _ Hg) as (Hext1 & Hcov1 & Hsub1).
    destruct (IH _ _ _ Hgs) as (Hext2 & Hcov2 & Hsub2).
    split_and!.
    + by eapply extends_trans.
    + constructor; [by eapply covers_extends|done].
    + f_equal; [|exact Hsub2]. by rewrite (substitute_extends acc' m g).
Qed.

Lemma formulas_specialization_map_complete σ gs : ∀ acc,
  agrees acc σ →
  ∃ m, formulas_specialization_map gs (substitute_variables σ <$> gs) acc = Some m
       ∧ agrees m σ.
Proof.
  induction gs as [|g gs IH]; intros acc Hacc; simpl.
  - by exists acc.
  - destruct (formula_specialization_map_complete σ g acc Hacc) as (acc' & -> & Hacc').
    simpl. by apply IH.
Qed.

Lemma rule_formulas_specialize general σ :
  rule_formulas (specialize general σ) = substitute_variables σ <$> rule_formulas general.
Proof. unfold rule_formulas, specialize. simpl. by rewrite fmap_app. Qed.

Lemma rule_formulas_inj r1 r2 : rule_formulas r1 = rule_formulas r2 → r1 = r2.
Proof.
  destruct r1 as [a1 c1], r2 as [a2 c2]. unfold rule_formulas. simpl.
  intros H. apply app_inj_tail in H as [-> ->]. done.
Qed.

Lemma specialization_map_sound general specialization m :
  specialization_map general specialization = Some m →
  specialize general m = specialization
  ∧ ∀ x, x ∈ rule_variables general → is_Some (Dict.get m x).
Proof.
  unfold specialization_map. intros H.
  apply formulas_specialization_map_sound in H as (_ & Hcov & Hsub). split.
  - apply rule_formulas_inj. by rewrite rule_formulas_specialize.
  - unfold rule_variables. intros x Hx.
    apply elem_of_union_list in Hx as (X & HX & Hx).
    apply list_elem_of_fmap in HX as (g & -> & Hg).
    rewrite Forall_forall in Hcov. by apply (Hcov g).
Qed.

Lemma is_specialization_of_spec specialization general :
  is_specialization_of specialization general = true
  ↔ specialization_of specialization general.
Proof.
  unfold is_specialization_of, specialization_of. rewrite bool_decide_eq_true. split.
  - intros [m Hm]. exists m. by apply specialization_map_sound.
  - intros [σ <-]. unfold specialization_map. rewrite rule_formulas_specialize.
    destruct (formulas_specialization_map_complete σ (rule_formulas general) [])
      as (m & -> & _); [by intros x f|]. done.
Qed.

(** ** Validity of proofs *)

Lemma forallb_seq_true (f : nat → bool) n :
  forallb f (seq 0 n) = true ↔ ∀ i, i < n → f i = true.
Proof.
  rewrite forallb_forall. split.
  - intros H i Hi. apply H, in_seq. lia.
  - intros H i Hi. apply in_seq in Hi. apply H. lia.
Qed.

Lemma forallb_lt_Forall (refs : list nat) i :
  forallb (fun a => a <? i) refs = true ↔ Forall (fun a => a < i) refs.
Proof.
  rewrite forallb_forall, Forall_forall. split; intros H a Ha.
  - apply Nat.ltb_lt, H. by apply list_elem_of_In.
  - apply Nat.ltb_lt, H. by apply list_elem_of_In.
Qed.

Lemma is_line_valid_spec proof i :
  is_line_valid proof i = true
  ↔ ∃ line, lines proof !! i = Some line
            ∧ line_ok (assumptions (statement proof)) (rules proof) (lines proof) i line.
Proof.
  unfold is_line_valid, rule_for_line.
  destruct (lines proof !! i) as [[f|f rule refs]|] eqn:Hi; simpl.
  - rewrite bool_decide_eq_true. split; [by eauto|]. by intros (? & [= <-] & ?).
  - rewrite !andb_true_iff, bool_decide_eq_true, forallb_lt_Forall. split.
    + intros [[Hr Hlt] Hs]. eexists; split; [done|]. simpl. split_and!; [done..|].
      destruct (mapM _ refs) as [premises|]; simpl in Hs; [|done].
      exists premises. split; [done|]. by apply is_specialization_of_spec.
    + intros (? & [= <-] & Hr & Hlt & premises & -> & Hs). simpl.
      split_and!; [done..|]. by apply is_specialization_of_spec.
  - split; [done|]. by intros (? & [=] & _).
Qed.

Lemma is_valid_spec proof :
  is_valid proof = true
  ↔ formula <$> last (lines proof) = Some (conclusion (statement proof))
    ∧ lines_ok (assumptions (statement proof)) (rules proof) (lines proof).
Proof.
  unfold is_valid, lines_ok.
  rewrite andb_true_iff, bool_decide_eq_true, forallb_seq_true.
  apply and_iff_compat_l. split.
  - intros H i line Hi.
    destruct (proj1 (is_line_valid_spec proof i)) as (line' & Hi' & Hok).
    { apply H. by eapply lookup_lt_Some. }
    congruence.
  - intros H i Hi. apply is_line_valid_spec.
    destruct (lookup_lt_is_Some_2 _ _ Hi) as [line Hline]. eauto.
Qed.

Lemma lines_ok_acyclic A R L : lines_ok A R L → acyclic L.
Proof.
  intros Hok i f rule refs a Hi Ha.
  destruct (Hok _ _ Hi) as (_ & Hlt & _).
  rewrite Forall_forall in Hlt. by apply Hlt.
Qed.

(** A line stays valid when lines are appended, rules are added, and the
    assumptions it may use are kept. *)
Lemma mapM_lookup_agree (L L' : list Line) refs i :
  Forall (fun a => a < i) refs →
  (∀ a, a < i → L' !! a = L !! a) →
  mapM (fun a => formula <$> L' !! a) refs = mapM (fun a => formula <$> L !! a) refs.
Proof.
  intros Hlt Hagree. induction Hlt as [|a refs Ha _ IH]; [done|].
  simpl. by rewrite Hagree, IH.
Qed.

Lemma line_ok_mono A A' (R R' : gset InferenceRule) L L' i line :
  (∀ f, f ∈ A → f ∈ A') →
  R ⊆ R' →
  (∀ a, a < i → L' !! a = L !! a) →
  line_ok A R L i line → line_ok A' R' L' i line.
Proof.
  intros HA HR HL. destruct line as [f|f rule refs]; simpl; [by apply HA|].
  intros (Hr & Hlt & premises & Hp & Hs). split_and!; [set_solver|done|].
  exists premises. split; [|done]. by rewrite (mapM_lookup_agree L L' refs i).
Qed.

Lemma lines_ok_app A (R : gset InferenceRule) L new :
  lines_ok A R L →
  (∀ k line, new !! k = Some line → line_ok A R (L ++ new) (length L + k) line) →
  lines_ok A R (L ++ new).
Proof.
  intros HL Hnew i line Hi.
  destruct (decide (i < length L)) as [Hlt|Hge].
  - rewrite lookup_app_l in Hi by done.
    eapply line_ok_mono; [done|done| |by apply HL].
    intros a Ha. apply lookup_app_l. lia.
  - rewrite lookup_app_r in Hi by lia.
    replace i with (length L + (i - length L)) by lia. by apply Hnew.
Qed.

Lemma lines_ok_mono A A' (R R' : gset InferenceRule) L :
  (∀ f, f ∈ A → f ∈ A') → R ⊆ R' → lines_ok A R L → lines_ok A' R' L.
Proof.
  intros HA HR HL i line Hi. eapply line_ok_mono; [done..| |by apply HL]. done.
Qed.

Lemma lookup_app_at {A} (L1 L2 : list A) i k :
  i = length L1 + k → (L1 ++ L2) !! i = L2 !! k.
Proof. intros ->. rewrite lookup_app_r by lia. f_equal. lia. Qed.

(** *** Instances of the axioms *)

Lemma MP_instance a b : specialization_of (mkInferenceRule [a; a ⟶ b] b) MP.
Proof. by exists [("p", a); ("q", b)]. Qed.

Lemma MP_instance_inv r :
  specialization_of r MP → ∃ a b, r = mkInferenceRule [a; a ⟶ b] b.
Proof. intros [σ <-]. by eexists _, _. Qed.

Lemma I0_instance a : specialization_of (mkInferenceRule [] (a ⟶ a)) I0.
Proof. by exists [("p", a)]. Qed.

Lemma I1_instance a b : specialization_of (mkInferenceRule [] (a ⟶ (b ⟶ a))) I1.
Proof. by exists [("p", a); ("q", b)]. Qed.

Lemma D_instance a b c :
  specialization_of (mkInferenceRule [] ((a ⟶ (b ⟶ c)) ⟶ ((a ⟶ b) ⟶ (a ⟶ c)))) D.
Proof. by exists [("p", a); ("q", b); ("r", c)]. Qed.

Lemma I2_instance a b : specialization_of (mkInferenceRule [] (Not a ⟶ (a ⟶ b))) I2.
Proof. by exists [("p", a); ("q", b)]. Qed.

Lemma N_instance a b :
  specialization_of (mkInferenceRule [] ((Not a ⟶ Not b) ⟶ (b ⟶ a))) N.
Proof. by exists [("p", a); ("q", b)]. Qed.

Lemma specialization_of_length specialization general :
  specialization_of specialization general →
  length (assumptions specialization) = length (assumptions general).
Proof. intros [σ <-]. simpl. by rewrite length_fmap. Qed.

Lemma mapM_lookup_length (L : list Line) refs premises :
  mapM (fun a => formula <$> L !! a) refs = Some premises → length premises = length refs.
Proof. intros H. symmetry. by eapply length_mapM. Qed.

(** A derived line over two earlier lines that is an instance of [MP]. *)
Lemma line_ok_MP A (R : gset InferenceRule) L i j k a b :
  MP ∈ R → j < i → k < i →
  formula <$> L !! j = Some a →
  formula <$> L !! k = Some (a ⟶ b) →
  line_ok A R L i (DerivedLine b MP [j; k]).
Proof.
  intros HR Hj Hk Ha Hab. simpl. split_and!; [done|by repeat constructor|].
  exists [a; a ⟶ b]. split; [|apply MP_instance].
  simpl. by rewrite Ha, Hab.
Qed.

(** A derived line with no premises that is an instance of its rule. *)
Lemma line_ok_axiom A (R : gset InferenceRule) L i f rule :
  rule ∈ R → specialization_of (mkInferenceRule [] f) rule →
  line_ok A R L i (DerivedLine f rule []).
Proof.
  intros HR Hs. simpl. split_and!; [done|constructor|]. by exists [].
Qed.

(** ** [prove_corollary] and [combine_proofs] *)

Lemma valid_last_line proof :
  is_valid proof = true →
  0 < length (lines proof)
  ∧ formula <$> lines proof !! (length (lines proof) - 1)
    = Some (conclusion (statement proof)).
Proof.
  intros Hv. apply is_valid_spec in Hv as [Hlast _].
  rewrite last_lookup in Hlast. replace (length (lines proof) - 1) with (pred (length (lines proof))) by lia.
  split; [|done].
  destruct (lines proof); [done|simpl; lia].
Qed.

Lemma prove_corollary_correct antecedent_proof consequent conditional :
  is_valid antecedent_proof = true →
  specialization_of
    (mkInferenceRule [] (conclusion (statement antecedent_proof) ⟶ consequent))
    conditional →
  let n := length (lines antecedent_proof) in
  let proof' :=
    mkProof (mkInferenceRule (assumptions (statement antecedent_proof)) consequent)
            (rules antecedent_proof ∪ {[ MP; conditional ]})
            (lines antecedent_proof
               ++ [DerivedLine (conclusion (statement antecedent_proof) ⟶ consequent)
                     conditional [];
                   DerivedLine consequent MP [n - 1; n]]) in
  prove_corollary antecedent_proof consequent conditional = Ok proof'
  ∧ is_valid proof' = true.
Proof.
  intros Hv Hs n proof'.
  destruct (valid_last_line _ Hv) as [Hlen Hlast]. fold n in Hlen, Hlast.
  split.
  - unfold prove_corollary.
    rewrite assert_true_bind by done.
    rewrite assert_true_bind by (by apply is_specialization_of_spec).
    simpl. unfold proof'. do 2 f_equal.
    rewrite <- (assoc_L (++)). simpl. rewrite length_app. simpl. fold n.
    replace (n + 1 - 2) with (n - 1) by lia. by replace (n + 1 - 1) with n by lia.
  - apply is_valid_spec. unfold proof'. simpl. split.
    + by rewrite last_app.
    + apply lines_ok_app.
      * eapply lines_ok_mono; [done| |by apply is_valid_spec]. set_solver.
      * intros [|[|k]] line; simpl; try done; intros [= <-].
        -- apply line_ok_axiom; [set_solver|done].
        -- fold n. eapply line_ok_MP; [set_solver|lia|lia| |].
           ++ by rewrite lookup_app_l by lia.
           ++ unfold n. rewrite lookup_app_r by lia. by rewrite Nat.sub_diag.
Qed.

Lemma formula_shift_line shift line : formula (shift_line shift line) = formula line.
Proof. by destruct line. Qed.

Lemma mapM_lookup_shift (L1 L2 L3 : list Line) refs :
  mapM (fun a => formula <$> (L1 ++ (shift_line (length L1) <$> L2) ++ L3) !! a)
       ((fun a => a + length L1) <$> refs)
  = match mapM (fun a => formula <$> L2 !! a) refs with
    | Some premises => Some premises
    | None => mapM (fun a => formula <$> (L1 ++ (shift_line (length L1) <$> L2) ++ L3) !! a)
                   ((fun a => a + length L1) <$> refs)
    end.
Proof.
  destruct (mapM (fun a => formula <$> L2 !! a) refs) as [premises|] eqn:Hm; [|done].
  apply mapM_Some. apply mapM_Some in Hm.
  induction Hm as [|a p refs premises Ha _ IH]; simpl; constructor; [|done].
  destruct (L2 !! a) as [l|] eqn:Hl; [|done]. simpl in Ha.
  rewrite lookup_app_r by lia. replace (a + length L1 - length L1) with a by lia.
  rewrite lookup_app_l.
  - rewrite list_lookup_fmap, Hl. simpl. by rewrite formula_shift_line.
  - rewrite length_fmap. by eapply lookup_lt_Some.
Qed.

Lemma line_ok_shift A (R : gset InferenceRule) (L1 L2 L3 : list Line) k line :
  line_ok A R L2 k line →
  line_ok A R (L1 ++ (shift_line (length L1) <$> L2) ++ L3) (length L1 + k)
          (shift_line (length L1) line).
Proof.
  destruct line as [f|f rule refs]; simpl; [done|].
  intros (Hr & Hlt & premises & Hp & Hs). split_and!; [done| |].
  - apply Forall_fmap. eapply Forall_impl; [done|]. simpl. lia.
  - exists premises. split; [|done]. by rewrite mapM_lookup_shift, Hp.
Qed.

Lemma combine_proofs_correct antecedent1_proof antecedent2_proof consequent double_conditional :
  is_valid antecedent1_proof = true →
  is_valid antecedent2_proof = true →
  assumptions (statement antecedent1_proof) = assumptions (statement antecedent2_proof) →
  rules antecedent1_proof = rules antecedent2_proof →
  specialization_of
    (mkInferenceRule []
       (conclusion (statement antecedent1_proof)
        ⟶ (conclusion (statement antecedent2_proof) ⟶ consequent)))
    double_conditional →
  let a1 := conclusion (statement antecedent1_proof) in
  let a2 := conclusion (statement antecedent2_proof) in
  let n1 := length (lines antecedent1_proof) in
  let n2 := length (lines antecedent2_proof) in
  let proof' :=
    mkProof (mkInferenceRule (assumptions (statement antecedent1_proof)) consequent)
            (rules antecedent1_proof ∪ {[ MP; double_conditional ]})
            (lines antecedent1_proof
               ++ (shift_line n1 <$> lines antecedent2_proof)
               ++ [DerivedLine (a1 ⟶ (a2 ⟶ consequent)) double_conditional [];
                   DerivedLine (a2 ⟶ consequent) MP [n1 - 1; n1 + n2];
                   DerivedLine consequent MP [n1 + n2 - 1; n1 + n2 + 1]]) in
  combine_proofs antecedent1_proof antecedent2_proof consequent double_conditional
  = Ok proof'
  ∧ is_valid proof' = true.
Proof.
  intros Hv1 Hv2 HA HR Hs a1 a2 n1 n2 proof'.
  destruct (valid_last_line _ Hv1) as [Hlen1 Hlast1]. fold n1 a1 in Hlen1, Hlast1.
  destruct (valid_last_line _ Hv2) as [Hlen2 Hlast2]. fold n2 a2 in Hlen2, Hlast2.
  split.
  - unfold combine_proofs.
    rewrite !assert_true_bind;
      [|by apply is_specialization_of_spec|by apply bool_decide_eq_true..|done|done].
    simpl. unfold proof'. do 2 f_equal.
    rewrite !length_app, length_fmap. simpl. fold n1 n2 a1 a2.
    rewrite <- !(assoc_L (++)). simpl.
    replace (n1 + n2 + 1 - 1) with (n1 + n2) by lia.
    by replace (n1 + n2 + 1 + 1 - 1) with (n1 + n2 + 1) by lia.
  - apply is_valid_spec. unfold proof'. simpl. split.
    + by rewrite !last_app.
    + apply is_valid_spec in Hv1 as [_ Hok1]. apply is_valid_spec in Hv2 as [_ Hok2].
      rewrite <- HA, <- HR in Hok2.
      set (R' := rules antecedent1_proof ∪ {[ MP; double_conditional ]}).
      assert (rules antecedent1_proof ⊆ R') as HR' by set_solver.
      set (new := [_; _; _]).
      apply lines_ok_app; [by eapply lines_ok_mono|].
      intros k line Hk.
      destruct (decide (k < n2)) as [Hlt|Hge].
      * rewrite lookup_app_l in Hk by (by rewrite length_fmap).
        rewrite list_lookup_fmap in Hk.
        destruct (lines antecedent2_proof !! k) as [l|] eqn:Hl; [|done].
        injection Hk as <-. apply line_ok_shift.
        eapply line_ok_mono; [done|exact HR'|done|by apply Hok2].
      * rewrite lookup_app_r in Hk by (rewrite length_fmap; fold n2; lia).
        rewrite length_fmap in Hk. fold n2 in Hk.
        assert (∀ a, a < n2 →
          formula <$>
            (lines antecedent1_proof ++ (shift_line n1 <$> lines antecedent2_proof) ++ new)
              !! (n1 + a)
          = formula <$> lines antecedent2_proof !! a) as Hsecond.
        { intros a Ha. rewrite lookup_app_r by (fold n1; lia).
          replace (n1 + a - length (lines antecedent1_proof)) with a by (fold n1; lia).
          rewrite lookup_app_l by (by rewrite length_fmap).
          rewrite list_lookup_fmap.
          destruct (lines antecedent2_proof !! a); [|done]. simpl.
          by rewrite formula_shift_line. }
        assert (∀ a, (lines antecedent1_proof
                        ++ (shift_line n1 <$> lines antecedent2_proof) ++ new)
                       !! (n1 + n2 + a) = new !! a) as Hthird.
        { intros a. rewrite lookup_app_r by (fold n1; lia).
          rewrite lookup_app_r by (rewrite length_fmap; fold n1 n2; lia).
          rewrite length_fmap. f_equal. fold n1 n2. lia. }
        fold n1.
        destruct (k - n2) as [|[|[|?]]] eqn:Hkn; simpl in Hk; try done;
          injection Hk as <-.
        -- apply line_ok_axiom; [set_solver|done].
        -- eapply (line_ok_MP _ _ _ _ _ _ a1 (a2 ⟶ consequent));
             [set_solver|lia|lia| |].
           ++ by rewrite lookup_app_l by (fold n1; lia).
           ++ replace (n1 + n2) with (n1 + n2 + 0) by lia. by rewrite Hthird.
        -- eapply (line_ok_MP _ _ _ _ _ _ a2 consequent); [set_solver|lia|lia| |].
           ++ replace (n1 + n2 - 1) with (n1 + (n2 - 1)) by lia.
              rewrite Hsecond by lia. done.
           ++ by rewrite Hthird.
Qed.

(** ** [remove_assumption] *)

Section remove_assumption.
Variable proof : Proof.
Variables (psi : Formula) (gamma : list Formula) (R : gset InferenceRule).

Hypothesis Hassumptions : ∀ f, f ∈ assumptions (statement proof) → f = psi ∨ f ∈ gamma.
Hypothesis Hallowed : ∀ rule, rule ∈ rules proof → rule_allowed rule = true.
Hypothesis Hrules : rules proof ∪ {[ MP; I0; I1; D ]} ⊆ R.
Hypothesis Hok : lines_ok (assumptions (statement proof)) (rules proof) (lines proof).

Local Abbreviation inv := (remove_assumption_inv (lines proof) psi gamma R).

(** Appending the lines [extra] for line [i], the last of which proves
    [psi ⟶] its formula, keeps the invariant. *)
Lemma inv_extend i line NL mapping extra last_line NL' m :
  NL' = NL ++ extra →
  m = length NL' - 1 →
  inv i NL mapping →
  lines proof !! i = Some line →
  (∀ k l, extra !! k = Some l → line_ok gamma R (NL ++ extra) (length NL + k) l) →
  last extra = Some last_line →
  formula last_line = psi ⟶ formula line →
  inv (S i) NL' (<[ i := m ]> mapping).
Proof.
  intros -> -> [Hnl Hmap _] Hi Hextra Hlast Hformula.
  assert (last (NL ++ extra) = Some last_line) as Hlast'.
  { by rewrite last_app, Hlast. }
  split.
  - by apply lines_ok_app.
  - intros j line_j Hj Hline_j.
    destruct (decide (j = i)) as [->|Hne].
    + rewrite lookup_insert_eq. eexists; split; [done|].
      rewrite last_lookup in Hlast'.
      replace (length (NL ++ extra) - 1) with (pred (length (NL ++ extra))) by lia.
      rewrite Hlast'. simpl. congruence.
    + rewrite lookup_insert_ne by done.
      destruct (Hmap j line_j) as (m & Hm & Hf); [lia|done|].
      exists m. split; [done|].
      rewrite lookup_app_l; [done|].
      destruct (NL !! m) eqn:Hnlm; [|done]. by eapply lookup_lt_Some.
  - intros line' _. simpl. rewrite Nat.sub_0_r, Hi, Hlast'.
    intros [= <-]. simpl. congruence.
Qed.

Lemma remove_assumption_step_correct i line NL mapping :
  inv i NL mapping →
  lines proof !! i = Some line →
  ∃ NL' mapping',
    remove_assumption_step proof psi i line NL mapping = Ok (NL', mapping')
    ∧ inv (S i) NL' mapping'.
Proof.
  intros Hinv Hi. pose proof (Hok _ _ Hi) as Hline.
  unfold remove_assumption_step.
  destruct (bool_decide (formula line = psi) && is_assumption line) eqn:Hpsi.
  { (* the line is the assumption that is removed *)
    apply andb_true_iff in Hpsi as [Hf%bool_decide_eq_true _].
    eexists _, _. split; [reflexivity|].
    eapply (inv_extend i line NL mapping [_]); [done|done|done|done| |done|simpl; congruence].
    intros [|k] l; [|done]. intros [= <-].
    apply line_ok_axiom; [set_solver|apply I0_instance]. }
  destruct (is_direct line) eqn:Hdirect.
  { (* another assumption, or an instance of a rule without assumptions *)
    eexists _, _. split; [reflexivity|].
    eapply (inv_extend i line NL mapping [_; _; _]);
      [by rewrite <- !(assoc_L (++))|reflexivity|done|done| |done|done].
    rewrite !length_app. simpl.
    intros [|[|[|k]]] l; try done; intros [= <-].
    - destruct line as [f|f rule refs]; simpl in Hpsi, Hdirect, Hline.
      + simpl. rewrite andb_true_r in Hpsi. apply bool_decide_eq_false in Hpsi.
        destruct (Hassumptions f Hline) as [?|?]; [done|done].
      + apply bool_decide_eq_true in Hdirect.
        destruct Hline as (Hr & _ & premises & Hp & Hs).
        pose proof (specialization_of_length _ _ Hs) as Hlen. simpl in Hlen.
        apply mapM_lookup_length in Hp.
        assert (premises = []) as -> by (apply nil_length_inv; lia).
        assert (refs = []) as -> by (apply nil_length_inv; simpl in Hp; lia).
        apply line_ok_axiom; [set_solver|done].
    - apply line_ok_axiom; [set_solver|apply I1_instance].
    - eapply line_ok_MP; [set_solver|lia|lia| |].
      + by rewrite (lookup_app_at _ _ _ 0) by lia.
      + by rewrite (lookup_app_at _ _ _ 1) by lia. }
  (* an instance of MP *)
  destruct line as [f|f rule refs]; [done|]. simpl in Hdirect, Hline |- *.
  apply bool_decide_eq_false in Hdirect.
  destruct Hline as (Hr & Hlt & premises & Hp & Hs).
  assert (rule = MP) as ->.
  { pose proof (Hallowed _ Hr) as Ha. unfold rule_allowed in Ha.
    apply orb_true_iff in Ha as [Ha|Ha]; apply bool_decide_eq_true in Ha; done. }
  apply MP_instance_inv in Hs as (a & b & [= -> <-]).
  pose proof (mapM_lookup_length _ _ _ Hp) as Hlen.
  destruct refs as [|j [|k [|? ?]]]; try done. clear Hlen.
  simpl in Hp.
  destruct (lines proof !! j) as [line_j|] eqn:Hj; [|done].
  destruct (lines proof !! k) as [line_k|] eqn:Hk; [|done].
  simpl in Hp. injection Hp as Hfj Hfk.
  apply Forall_cons in Hlt as [Hji Hlt]. apply Forall_cons in Hlt as [Hki _].
  destruct (inv_mapping _ _ _ _ _ _ _ Hinv j line_j Hji Hj) as (mj & Hmj & Hfmj).
  destruct (inv_mapping _ _ _ _ _ _ _ Hinv k line_k Hki Hk) as (mk & Hmk & Hfmk).
  simpl. rewrite Hmk. simpl. rewrite Hmj. simpl.
  eexists _, _. split; [reflexivity|].
  assert (mj < length NL) as Hmj_lt.
  { destruct (NL !! mj) eqn:E; [by eapply lookup_lt_Some|done]. }
  assert (mk < length NL) as Hmk_lt.
  { destruct (NL !! mk) eqn:E; [by eapply lookup_lt_Some|done]. }
  eapply (inv_extend i _ NL mapping [_; _; _]);
    [by rewrite <- !(assoc_L (++))|reflexivity|done|done| |done|done].
  rewrite !length_app. simpl.
  intros [|[|[|n]]] l; try done; intros [= <-].
  - apply line_ok_axiom; [set_solver|apply D_instance].
  - eapply line_ok_MP; [set_solver|lia|lia| |].
    + rewrite lookup_app_l by done. rewrite Hfmk, Hfk. done.
    + rewrite (lookup_app_at _ _ _ 0) by lia. simpl. by rewrite Hfj.
  - eapply line_ok_MP; [set_solver|lia|lia| |].
    + rewrite lookup_app_l by done. by rewrite Hfmj, Hfj.
    + rewrite (lookup_app_at _ _ _ 1) by lia. simpl. by rewrite Hfj.
Qed.

Lemma remove_assumption_loop_correct todo : ∀ i NL mapping,
  (∀ k line, todo !! k = Some line → lines proof !! (i + k) = Some line) →
  inv i NL mapping →
  ∃ NL' mapping',
    remove_assumption_loop proof psi i todo NL mapping = Ok NL'
    ∧ inv (i + length todo) NL' mapping'.
Proof.
  induction todo as [|line todo IH]; intros i NL mapping Htodo Hinv; simpl.
  - exists NL, mapping. by rewrite Nat.add_0_r.
  - destruct (remove_assumption_step_correct i line NL mapping)
      as (NL1 & mapping1 & -> & Hinv1); [done| |].
    { specialize (Htodo 0 line). rewrite Nat.add_0_r in Htodo. by apply Htodo. }
    simpl. replace (i + S (length todo)) with (S i + length todo) by lia.
    apply IH; [|done].
    intros k l Hk. replace (S i + k) with (i + S k) by lia. by apply Htodo.
Qed.

End remove_assumption.

Lemma forallb_elements_true (f : InferenceRule → bool) (X : gset InferenceRule) :
  forallb f (elements X) = true ↔ ∀ r, r ∈ X → f r = true.
Proof.
  rewrite forallb_forall. split; intros H r Hr.
  - apply H, list_elem_of_In, elem_of_elements, Hr.
  - apply H, elem_of_elements, list_elem_of_In, Hr.
Qed.

Lemma take_last_split {A} (l : list A) (x : A) :
  last l = Some x → l = take (length l - 1) l ++ [x].
Proof.
  intros Hlast. destruct (last_Some l x) as [[l' ->] _]; [done|].
  rewrite length_app. simpl. replace (length l' + 1 - 1) with (length l') by lia.
  by rewrite take_app_length.
Qed.

Lemma remove_assumption_correct proof :
  is_valid proof = true →
  0 < length (assumptions (statement proof)) →
  (∀ rule, rule ∈ rules proof → rule_allowed rule = true) →
  ∃ gamma psi new_lines,
    assumptions (statement proof) = gamma ++ [psi]
    ∧ remove_assumption proof
      = Ok (mkProof (mkInferenceRule gamma (psi ⟶ conclusion (statement proof)))
                    (rules proof ∪ {[ MP; I0; I1; D ]})
                    new_lines)
    ∧ is_valid (mkProof (mkInferenceRule gamma (psi ⟶ conclusion (statement proof)))
                        (rules proof ∪ {[ MP; I0; I1; D ]})
                        new_lines) = true.
Proof.
  intros Hv Hlen Hallowed.
  destruct (last (assumptions (statement proof))) as [psi|] eqn:Hlast.
  2: { apply last_None in Hlast. rewrite Hlast in Hlen. simpl in Hlen. lia. }
  pose proof (take_last_split _ _ Hlast) as Hsplit.
  set (gamma := take (length (assumptions (statement proof)) - 1)
                     (assumptions (statement proof))) in *.
  pose proof (valid_last_line _ Hv) as [Hn Hconcl].
  pose proof (proj1 (is_valid_spec proof) Hv) as [_ Hok].
  destruct (remove_assumption_loop_correct proof psi gamma
              (rules proof ∪ {[ MP; I0; I1; D ]})) with
    (todo := lines proof) (i := 0) (NL := @nil Line) (mapping := (∅ : gmap nat nat))
    as (NL & mapping & Hloop & Hinv); try done.
  { intros f Hf. rewrite Hsplit in Hf. apply elem_of_app in Hf as [Hf|Hf]; [by right|].
    left. by apply list_elem_of_singleton in Hf. }
  { split; [by intros i line|intros; lia|intros; lia]. }
  exists gamma, psi, NL. split; [done|]. split.
  - unfold remove_assumption.
    rewrite !assert_true_bind;
      [|by apply forallb_elements_true|by apply Nat.ltb_lt|done].
    rewrite Hlast. simpl. fold gamma. by rewrite Hloop.
  - apply is_valid_spec. simpl. split; [|by destruct Hinv].
    simpl in Hinv.
    destruct (lines proof !! (length (lines proof) - 1)) as [line|] eqn:Hline; [|done].
    rewrite (inv_last _ _ _ _ _ _ _ Hinv line); [|lia|done].
    simpl in Hconcl. congruence.
Qed.

(** ** [prove_from_opposites] and [prove_by_way_of_contradiction] *)

Lemma prove_from_opposites_correct proof_of_affirmation proof_of_negation conclusion' :
  is_valid proof_of_affirmation = true →
  is_valid proof_of_negation = true →
  assumptions (statement proof_of_affirmation) = assumptions (statement proof_of_negation) →
  Not (conclusion (statement proof_of_affirmation)) = conclusion (statement proof_of_negation) →
  rules proof_of_affirmation = rules proof_of_negation →
  ∃ proof',
    prove_from_opposites proof_of_affirmation proof_of_negation conclusion' = Ok proof'
    ∧ statement proof'
      = mkInferenceRule (assumptions (statement proof_of_affirmation)) conclusion'
    ∧ rules proof' = rules proof_of_affirmation ∪ {[ MP; I2 ]}
    ∧ is_valid proof' = true.
Proof.
  intros Hva Hvn HA HC HR.
  destruct (combine_proofs_correct proof_of_negation proof_of_affirmation conclusion' I2)
    as [Hrun Hvalid]; [done|done|done|done| |].
  { rewrite <- HC. apply I2_instance. }
  eexists. split; [|split; [|split; [|exact Hvalid]]].
  - unfold prove_from_opposites.
    rewrite !assert_true_bind; [exact Hrun|by apply bool_decide_eq_true..|done|done].
  - simpl. by rewrite HA.
  - simpl. by rewrite HR.
Qed.

Lemma prove_by_way_of_contradiction_correct proof gamma phi :
  is_valid proof = true →
  conclusion (statement proof) = Not (Var "p" ⟶ Var "p") →
  assumptions (statement proof) = gamma ++ [Not phi] →
  (∀ rule, rule ∈ rules proof → rule_allowed rule = true) →
  ∃ removed,
    let n := length removed in
    let f_p_p := Var "p" ⟶ Var "p" in
    let proof' :=
      mkProof (mkInferenceRule gamma phi)
              (rules proof ∪ {[ MP; I0; I1; D ]} ∪ {[ MP; I0; I1; D; N ]})
              (removed
                 ++ [DerivedLine ((Not phi ⟶ Not f_p_p) ⟶ (f_p_p ⟶ phi)) N [];
                     DerivedLine (f_p_p ⟶ phi) MP [n - 1; n];
                     DerivedLine f_p_p I0 [];
                     DerivedLine phi MP [n + 2; n + 1]]) in
    remove_assumption proof
    = Ok (mkProof (mkInferenceRule gamma (Not phi ⟶ Not f_p_p))
                  (rules proof ∪ {[ MP; I0; I1; D ]}) removed)
    ∧ prove_by_way_of_contradiction proof = Ok proof'
    ∧ is_valid proof' = true.
Proof.
  intros Hv Hconcl Hassum Hallowed.
  destruct (remove_assumption_correct proof) as (gamma' & psi & removed & Hsplit & Hrun & Hvalid);
    [done|rewrite Hassum, length_app; simpl; lia|done|].
  rewrite Hassum in Hsplit. apply app_inj_tail in Hsplit as [<- <-].
  rewrite Hconcl in Hrun, Hvalid.
  exists removed. intros n f_p_p proof'.
  destruct (valid_last_line _ Hvalid) as [Hn Hlast]. simpl in Hn, Hlast. fold n in Hn, Hlast.
  split; [done|]. split.
  - unfold prove_by_way_of_contradiction.
    rewrite !assert_true_bind;
      [|by apply Nat.ltb_lt; rewrite Hassum, length_app; simpl; lia
       |by apply bool_decide_eq_true|done].
    rewrite Hassum, last_snoc. simpl.
    rewrite assert_true_bind by (by apply forallb_elements_true).
    rewrite Hrun. simpl. unfold proof'. do 2 f_equal.
    rewrite <- !(assoc_L (++)). simpl. rewrite !length_app. simpl. fold n.
    unfold f_p_p. same_lines.
  - apply is_valid_spec. unfold proof'. simpl. split; [by rewrite last_app|].
    apply is_valid_spec in Hvalid as [_ Hok]. simpl in Hok.
    apply lines_ok_app.
    { eapply lines_ok_mono; [done| |done]. set_solver. }
    assert (∀ a, (removed ++ [DerivedLine ((Not phi ⟶ Not f_p_p) ⟶ (f_p_p ⟶ phi)) N [];
                     DerivedLine (f_p_p ⟶ phi) MP [n - 1; n];
                     DerivedLine f_p_p I0 [];
                     DerivedLine phi MP [n + 2; n + 1]]) !! (n + a)
                 = [DerivedLine ((Not phi ⟶ Not f_p_p) ⟶ (f_p_p ⟶ phi)) N [];
                     DerivedLine (f_p_p ⟶ phi) MP [n - 1; n];
                     DerivedLine f_p_p I0 [];
                     DerivedLine phi MP [n + 2; n + 1]] !! a) as Hnew.
    { intros a. rewrite lookup_app_r by (fold n; lia). f_equal. fold n. lia. }
    intros [|[|[|[|k]]]] line; simpl; try done; intros [= <-]; fold n.
    + apply line_ok_axiom; [set_solver|apply N_instance].
    + eapply (line_ok_MP _ _ _ _ _ _ (Not phi ⟶ Not f_p_p)); [set_solver|lia|lia| |].
      * by rewrite lookup_app_l by (fold n; lia).
      * replace n with (n + 0) at 1 by lia. by rewrite Hnew.
    + apply line_ok_axiom; [set_solver|apply I0_instance].
    + eapply (line_ok_MP _ _ _ _ _ _ f_p_p); [set_solver|lia|lia| |].
      * by rewrite Hnew.
      * by rewrite Hnew.
Qed.

(** ** [all_models] *)

Lemma bool_of_int_land_shiftr i k :
  (0 ≤ k)%Z → bool_of_int (Z.land (Z.shiftr i k) 1) = Z.testbit i k.
Proof.
  intros Hk. unfold bool_of_int.
  rewrite Z.testbit_odd.
  change 1%Z with (Z.ones 1). rewrite Z.land_ones by lia.
  rewrite Z.pow_1_r, Zmod_odd.
  by destruct (Z.odd (Z.shiftr i k)).
Qed.

Lemma fill_model_nodup n i vs : ∀ j model,
  NoDup vs →
  (∀ v, v ∈ vs → v ∉ Dict.keys model) →
  fill_model n i j vs model
  = model ++ zip vs ((fun j => Z.testbit i (Z.of_nat (n - 1 - j))) <$> seq j (length vs)).
Proof.
  induction vs as [|v vs IH]; intros j model Hnd Hfresh; simpl.
  - by rewrite app_nil_r.
  - apply NoDup_cons in Hnd as [Hv Hnd].
    rewrite bool_of_int_land_shiftr by lia.
    rewrite keys_set_new by (apply Hfresh; by left).
    rewrite IH; [by rewrite <- (assoc_L (++))|done|].
    intros v' Hv'. unfold Dict.keys. rewrite fmap_app, elem_of_app. simpl.
    intros [Hin|Hin%list_elem_of_singleton]; [|by subst].
    by apply (Hfresh v'); [right|].
Qed.

Lemma all_models_nodup vs :
  NoDup vs → forallb is_variable vs = true →
  all_models vs = Ok ((fun i => zip vs (bits (length vs) i)) <$> seqZ 0 (2 ^ Z.of_nat (length vs))).
Proof.
  intros Hnd Hvars. unfold all_models. rewrite assert_true_bind by done. simpl.
  f_equal. apply list_fmap_ext. intros k i _.
  rewrite fill_model_nodup; [reflexivity|done|].
  intros v _ Hv. by apply elem_of_nil in Hv.
Qed.

Lemma bits_S n i : bits (S n) i = Z.testbit i (Z.of_nat n) :: bits n i.
Proof.
  unfold bits. rewrite <- cons_seq, <- fmap_S_seq, fmap_cons, <- list_fmap_compose.
  f_equal; [do 2 f_equal; lia|].
  apply list_fmap_ext. intros k j _. simpl. do 2 f_equal. lia.
Qed.

Lemma testbit_high_false n i :
  (0 ≤ i < 2 ^ Z.of_nat n)%Z → Z.testbit i (Z.of_nat n) = false.
Proof.
  intros Hi. apply Z.testbit_false; [lia|]. by rewrite Z.div_small.
Qed.

Lemma testbit_high_true n i :
  (0 ≤ i < 2 ^ Z.of_nat n)%Z → Z.testbit (2 ^ Z.of_nat n + i) (Z.of_nat n) = true.
Proof.
  intros Hi. apply Z.testbit_true; [lia|].
  replace (2 ^ Z.of_nat n + i)%Z with (i + 1 * 2 ^ Z.of_nat n)%Z by lia.
  rewrite Z.div_add by lia. by rewrite Z.div_small.
Qed.

Lemma testbit_low_add n i k :
  k < n → Z.testbit (2 ^ Z.of_nat n + i) (Z.of_nat k) = Z.testbit i (Z.of_nat k).
Proof.
  intros Hk.
  rewrite <- (Z.mod_pow2_bits_low (2 ^ Z.of_nat n + i) (Z.of_nat n)) by lia.
  rewrite <- (Z.mod_pow2_bits_low i (Z.of_nat n) (Z.of_nat k)) by lia.
  f_equal. replace (2 ^ Z.of_nat n + i)%Z with (i + 1 * 2 ^ Z.of_nat n)%Z by lia.
  apply Z.mod_add. lia.
Qed.

Lemma bits_add n i : bits n (2 ^ Z.of_nat n + i) = bits n i.
Proof.
  unfold bits. apply list_fmap_ext. intros k j Hj.
  apply lookup_seq in Hj as [-> Hj]. apply testbit_low_add. lia.
Qed.

Lemma bits_enumeration n :
  bits n <$> seqZ 0 (2 ^ Z.of_nat n) = all_assignments n.
Proof.
  induction n as [|n IH]; [done|].
  replace (2 ^ Z.of_nat (S n))%Z with (2 ^ Z.of_nat n + 2 ^ Z.of_nat n)%Z
    by (rewrite Nat2Z.inj_succ, Z.pow_succ_r; lia).
  assert (0 ≤ 2 ^ Z.of_nat n)%Z as Hpow by lia.
  rewrite seqZ_app, fmap_app by lia. simpl. f_equal.
  - rewrite <- IH, <- list_fmap_compose. apply list_fmap_ext. intros k i Hi.
    apply lookup_seqZ in Hi as [-> Hk]. simpl.
    rewrite bits_S, testbit_high_false; [done|lia].
  - rewrite <- IH, <- list_fmap_compose.
    replace (0 + 2 ^ Z.of_nat n)%Z with (2 ^ Z.of_nat n + 0)%Z by lia.
    rewrite <- (fmap_add_seqZ (2 ^ Z.of_nat n) 0), <- list_fmap_compose.
    apply list_fmap_ext. intros k i Hi.
    apply lookup_seqZ in Hi as [-> Hk]. simpl.
    rewrite bits_S, testbit_high_true, bits_add; [done|lia].
Qed.

Lemma all_assignments_length n : length (all_assignments n) = 2 ^ n.
Proof.
  induction n as [|n IH]; [done|]. simpl.
  rewrite length_app, !length_fmap, IH. lia.
Qed.

Lemma all_assignments_each_length n u : u ∈ all_assignments n → length u = n.
Proof.
  revert u. induction n as [|n IH]; intros u; simpl.
  - by intros ->%list_elem_of_singleton.
  - rewrite elem_of_app, !list_elem_of_fmap.
    intros [(u' & -> & Hu')|(u' & -> & Hu')]; simpl; f_equal; by apply IH.
Qed.

Lemma all_assignments_complete n u : length u = n → u ∈ all_assignments n.
Proof.
  revert u. induction n as [|n IH]; intros [|b u]; simpl; try done.
  - intros _. by apply list_elem_of_singleton.
  - intros [= Hlen]. rewrite elem_of_app, !list_elem_of_fmap.
    destruct b; [right|left]; exists u; by split; [|apply IH].
Qed.

Lemma StronglySorted_fmap_cons b (l : list (list bool)) :
  StronglySorted lex_lt l → StronglySorted lex_lt (cons b <$> l).
Proof.
  induction 1 as [|u l Hl IH Hu]; simpl; constructor; [done|].
  apply Forall_fmap. eapply Forall_impl; [done|]. intros v Hv. simpl. by right.
Qed.

Lemma all_assignments_sorted n : StronglySorted lex_lt (all_assignments n).
Proof.
  induction n as [|n IH]; simpl.
  - repeat constructor.
  - apply StronglySorted_app_2; [|by apply StronglySorted_fmap_cons..].
    intros u v (u' & -> & _)%list_elem_of_fmap (v' & -> & _)%list_elem_of_fmap.
    simpl. by left.
Qed.

Lemma lex_lt_irrefl u : ¬ lex_lt u u.
Proof.
  induction u as [|b u IH]; simpl; [by intros []|].
  intros [[? ?]|[_ ?]]; [congruence|done].
Qed.

Lemma all_assignments_nodup n : NoDup (all_assignments n).
Proof.
  pose proof (all_assignments_sorted n) as Hs.
  induction Hs as [|u l Hl IH Hu]; constructor; [|done].
  intros Hin. rewrite Forall_forall in Hu. by apply (lex_lt_irrefl u), Hu.
Qed.

(** ** [evaluate] *)

Lemma evaluate_unfold formula model :
  evaluate formula model
  = (_ ← assert (is_model model);
     vars ← model_variables model;
     _ ← assert (bool_decide (variables formula ⊆ list_to_set vars));
     match formula with
     | Const value => mret value
     | Var name => or_raise KeyError (Dict.get model name)
     | Not first => b ← evaluate first model; mret (negb b)
     | Binary root first second =>
         left ← evaluate first model;
         right ← evaluate second model;
         mret match root with
              | And => left && right
              | Or => left || right
              | Implies => negb left || right
              | Xor => negb (eqb left right)
              | Iff => eqb left right
              | Nand => negb (left && right)
              | Nor => negb (left || right)
              end
     end).
Proof. by destruct formula. Qed.

(** In a model over variable names that covers the formula, [evaluate]
    raises nothing and returns the truth value of the formula. *)
Lemma evaluate_Ok model f :
  is_model model = true → model_covers model f → evaluate f model = Ok (holds model f).
Proof.
  intros Hm. unfold model_covers.
  induction f as [x|b|g IH|op g IHg h IHh]; intros Hcov; rewrite evaluate_unfold;
    unfold model_variables; rewrite !assert_true_bind by done; simpl;
    rewrite assert_true_bind by (by apply bool_decide_eq_true); simpl in *.
  - destruct (proj2 (get_Some_keys model x)) as [b Hb].
    { assert (x ∈ (list_to_set (Dict.keys model) : gset string)) as Hx by set_solver.
      by apply elem_of_list_to_set in Hx. }
    by rewrite Hb.
  - done.
  - by rewrite IH.
  - rewrite IHg, IHh by set_solver. done.
Qed.

(** [evaluate] fails with an assertion error, and with nothing else, exactly
    when the model has a key that is no variable name or misses a variable
    of the formula. *)
Lemma evaluate_Raise model f :
  ¬ (is_model model = true ∧ model_covers model f) →
  evaluate f model = Raise AssertionError.
Proof.
  intros Hnot. rewrite evaluate_unfold. unfold model_variables.
  destruct (is_model model) eqn:Hm; [|done]. simpl.
  rewrite bool_decide_eq_false_2; [done|]. intros Hcov. by apply Hnot.
Qed.

(** ** [is_tautology], [is_contradiction], [is_satisfiable] *)

Lemma py_any_all {A} (f : A → result bool) l :
  py_any f l = negb <$> py_all (fun x => b ← f x; mret (negb b)) l.
Proof.
  induction l as [|x l IH]; simpl; [done|].
  destruct (f x) as [[|]|e]; simpl; [done| |done]. exact IH.
Qed.

Lemma py_all_Ok {A} (f : A → result bool) (g : A → bool) l :
  (∀ x, x ∈ l → f x = Ok (g x)) → py_all f l = Ok (forallb g l).
Proof.
  induction l as [|x l IH]; intros Hf; simpl; [done|].
  rewrite (Hf x) by (by left). simpl.
  destruct (g x); simpl; [|done]. apply IH. intros y Hy. apply Hf. by right.
Qed.

Lemma py_any_Ok {A} (f : A → result bool) (g : A → bool) l :
  (∀ x, x ∈ l → f x = Ok (g x)) → py_any f l = Ok (existsb g l).
Proof.
  induction l as [|x l IH]; intros Hf; simpl; [done|].
  rewrite (Hf x) by (by left). simpl.
  destruct (g x); simpl; [done|]. apply IH. intros y Hy. apply Hf. by right.
Qed.

Lemma all_models_assignments vs :
  NoDup vs → forallb is_variable vs = true →
  all_models vs = Ok (zip vs <$> all_assignments (length vs)).
Proof.
  intros Hnd Hvars. rewrite all_models_nodup by done. f_equal.
  by rewrite <- bits_enumeration, <- list_fmap_compose.
Qed.

Lemma keys_zip (vs : list string) (u : list bool) :
  length u = length vs → Dict.keys (zip vs u) = vs.
Proof. intros Hlen. unfold Dict.keys. apply fst_zip. lia. Qed.

Lemma all_models_keys vs models m :
  NoDup vs → forallb is_variable vs = true →
  all_models vs = Ok models → m ∈ models → Dict.keys m = vs.
Proof.
  intros Hnd Hvars. rewrite all_models_assignments by done. intros [= <-].
  intros (u & -> & Hu)%list_elem_of_fmap.
  apply keys_zip. by apply all_assignments_each_length.
Qed.

Lemma well_formed_variables f :
  well_formed f = true → ∀ x, x ∈ variables f → is_variable x = true.
Proof.
  induction f as [x|b|g IH|op g IHg h IHh]; simpl; intros Hwf y Hy.
  - by apply elem_of_singleton in Hy as ->.
  - set_solver.
  - by apply IH.
  - apply andb_true_iff in Hwf as [Hg Hh].
    apply elem_of_union in Hy as [Hy|Hy]; [by apply IHg|by apply IHh].
Qed.

Lemma variables_list_ok f :
  well_formed f = true →
  NoDup (elements (variables f)) ∧ forallb is_variable (elements (variables f)) = true.
Proof.
  intros Hwf. split; [apply NoDup_elements|].
  apply forallb_forall. intros x Hx%list_elem_of_In%elem_of_elements.
  by apply well_formed_variables with f.
Qed.

(** Every model of [all_models] over the variables of a well-formed formula
    evaluates it. *)
Lemma evaluate_all_models f models m :
  well_formed f = true →
  all_models (elements (variables f)) = Ok models → m ∈ models →
  evaluate f m = Ok (holds m f).
Proof.
  intros Hwf Hmodels Hm. destruct (variables_list_ok f Hwf) as [Hnd Hvars].
  pose proof (all_models_keys _ _ _ Hnd Hvars Hmodels Hm) as Hkeys.
  apply evaluate_Ok.
  - unfold is_model. by rewrite Hkeys.
  - unfold model_covers. rewrite Hkeys. intros x Hx.
    by apply elem_of_list_to_set, elem_of_elements.
Qed.

(** ** [synthesize] *)

Lemma holds_atom_of model item : holds model (atom_of item) = agrees_on model item.
Proof.
  destruct item as [v [|]]; unfold atom_of, agrees_on; simpl;
    by destruct (default false (Dict.get model v)).
Qed.

Lemma holds_foldl_And model items : ∀ res,
  holds model (foldl (fun res it => Binary And res (atom_of it)) res items)
  = holds model res && forallb (agrees_on model) items.
Proof.
  induction items as [|it items IH]; intros res; simpl.
  - by rewrite andb_true_r.
  - by rewrite IH; simpl; rewrite holds_atom_of, andb_assoc.
Qed.

Lemma holds_clause_of model m :
  m ≠ [] → holds model (clause_of m) = forallb (agrees_on model) m.
Proof.
  destruct m as [|item items]; [done|]. intros _. simpl.
  by rewrite holds_foldl_And, holds_atom_of.
Qed.

Lemma variables_foldl_And items : ∀ res,
  variables (foldl (fun res it => Binary And res (atom_of it)) res items)
  = variables res ∪ list_to_set items.*1.
Proof.
  induction items as [|[v b] items IH]; intros res; simpl.
  - set_solver.
  - rewrite IH. simpl. destruct b; simpl; set_solver.
Qed.

Lemma variables_clause_of m : m ≠ [] → variables (clause_of m) = list_to_set (Dict.keys m).
Proof.
  destruct m as [|[v b] items]; [done|]. intros _. simpl.
  rewrite variables_foldl_And. unfold atom_of. by destruct b.
Qed.

Lemma holds_foldl_Or model clauses : ∀ clause,
  holds model (foldl (Binary Or) clause clauses)
  = holds model clause || existsb (holds model) clauses.
Proof.
  induction clauses as [|c clauses IH]; intros clause; simpl.
  - by rewrite orb_false_r.
  - by rewrite IH; simpl; rewrite orb_assoc.
Qed.

Lemma variables_foldl_Or clauses : ∀ clause,
  variables (foldl (Binary Or) clause clauses)
  = variables clause ∪ ⋃ (variables <$> clauses).
Proof.
  induction clauses as [|c clauses IH]; intros clause; simpl.
  - set_solver.
  - rewrite IH. simpl. set_solver.
Qed.

Lemma well_formed_foldl_And items : ∀ res,
  well_formed res = true → forallb is_variable items.*1 = true →
  well_formed (foldl (fun res it => Binary And res (atom_of it)) res items) = true.
Proof.
  induction items as [|[v b] items IH]; intros res Hres Hitems; simpl in *; [done|].
  apply andb_true_iff in Hitems as [Hv Hitems]. apply IH; [|done].
  simpl. rewrite Hres. unfold atom_of. by destruct b.
Qed.

Lemma well_formed_clause_of m : is_model m = true → well_formed (clause_of m) = true.
Proof.
  destruct m as [|[v b] items]; [done|]. unfold is_model. simpl.
  intros [Hv Hitems]%andb_true_iff. apply well_formed_foldl_And; [|done].
  unfold atom_of. by destruct b.
Qed.

Lemma well_formed_foldl_Or clauses : ∀ clause,
  well_formed clause = true → Forall (fun c => well_formed c = true) clauses →
  well_formed (foldl (Binary Or) clause clauses) = true.
Proof.
  induction clauses as [|c clauses IH]; intros clause Hc Hcs; simpl; [done|].
  apply Forall_cons in Hcs as [Hc' Hcs]. apply IH; [|done]. simpl. by rewrite Hc, Hc'.
Qed.

Lemma forallb_ext_elem_of {A} (f g : A → bool) l :
  (∀ x, x ∈ l → f x = g x) → forallb f l = forallb g l.
Proof.
  induction l as [|x l IH]; intros H; simpl; [done|].
  rewrite (H x) by (by left). f_equal. apply IH. intros y Hy. apply H. by right.
Qed.

(** In a model over distinct names, a name has the value zipped with it. *)
Lemma forallb_agrees_on_zip vs : ∀ u u',
  NoDup vs → length u = length vs → length u' = length vs →
  forallb (agrees_on (zip vs u')) (zip vs u) = bool_decide (u = u').
Proof.
  induction vs as [|v vs IH]; intros [|b u] [|b' u'] Hnd Hu Hu'; simpl in *; try done.
  apply NoDup_cons in Hnd as [Hv Hnd].
  unfold agrees_on at 1. simpl. rewrite decide_True by done. simpl.
  assert (forallb (agrees_on ((v, b') :: zip vs u')) (zip vs u)
          = forallb (agrees_on (zip vs u')) (zip vs u)) as ->.
  { apply forallb_ext_elem_of. intros [w c] Hw.
    unfold agrees_on. simpl. rewrite decide_False; [done|].
    intros ->. apply Hv. apply elem_of_zip_l in Hw. done. }
  rewrite IH by (done || lia).
  apply eq_true_iff_eq.
  rewrite andb_true_iff, !bool_decide_eq_true, Bool.eqb_true_iff.
  split; [by intros [-> ->]|by intros [= -> ->]].
Qed.

Lemma synthesize_for_model_Ok m :
  is_model m = true → m ≠ [] → synthesize_for_model m = Ok (clause_of m).
Proof.
  intros Hm Hne. unfold synthesize_for_model. rewrite assert_true_bind by done.
  by destruct m.
Qed.

Lemma synthesize_clauses_Ok pairs :
  (∀ m b, (m, b) ∈ pairs → is_model m = true ∧ m ≠ []) →
  synthesize_clauses pairs = Ok (clause_of <$> selected pairs).
Proof.
  induction pairs as [|[m b] pairs IH]; intros Hpairs; simpl; [done|].
  assert (synthesize_clauses pairs = Ok (clause_of <$> selected pairs)) as Hrest.
  { apply IH. intros m' b' Hin. apply (Hpairs m' b'). by right. }
  destruct b; [|done].
  destruct (Hpairs m true) as [Hm Hne]; [by left|].
  by rewrite synthesize_for_model_Ok, Hrest.
Qed.

Lemma elem_of_selected pairs m : m ∈ selected pairs ↔ (m, true) ∈ pairs.
Proof.
  induction pairs as [|[m' [|]] pairs IH]; simpl.
  - by rewrite !elem_of_nil.
  - rewrite !elem_of_cons, IH. split; (intros [H|H]; [left|by right]); congruence.
  - rewrite elem_of_cons, IH. split; [by right|]. by intros [[=]|H].
Qed.

(** With distinct models, the model at a position is selected exactly when
    the value at that position is true. *)
Lemma selected_lookup (models : list Model) (values : list bool) k m b :
  NoDup models → models !! k = Some m → values !! k = Some b →
  bool_decide (m ∈ selected (zip models values)) = b.
Proof.
  intros Hnd Hm Hb. destruct b.
  - apply bool_decide_eq_true. apply elem_of_selected.
    apply list_elem_of_lookup. exists k. rewrite lookup_zip_with, Hm. simpl. by rewrite Hb.
  - apply bool_decide_eq_false. intros Hin%elem_of_selected.
    apply list_elem_of_lookup in Hin as [j Hj].
    apply lookup_zip_with_Some in Hj as (m' & b' & [= <- <-] & Hm' & Hb').
    assert (j = k) as -> by (by eapply NoDup_lookup). congruence.
Qed.

Lemma truth_values_Ok f models :
  (∀ m, m ∈ models → evaluate f m = Ok (holds m f)) →
  truth_values f models = Ok ((fun m => holds m f) <$> models).
Proof.
  induction models as [|m models IH]; intros Hev; simpl; [done|].
  rewrite (Hev m) by (by left). simpl. rewrite IH; [done|].
  intros m' Hm'. apply Hev. by right.
Qed.

Lemma existsb_bool_decide_eq {A} `{EqDecision A} (g : A → bool) (l : list A) (y : A) :
  (∀ x, x ∈ l → g x = bool_decide (x = y)) → existsb g l = bool_decide (y ∈ l).
Proof.
  induction l as [|x l IH]; intros Hg; cbn [existsb].
  - symmetry. apply bool_decide_eq_false_2. intros Hy. by apply elem_of_nil in Hy.
  - rewrite (Hg x) by (by left). rewrite IH by (intros z Hz; apply Hg; by right).
    apply eq_true_iff_eq. rewrite orb_true_iff, !bool_decide_eq_true, elem_of_cons.
    split; (intros [H|H]; [by left|by right]).
Qed.

Section synthesize.
Variable vs : list string.
Hypothesis vs_nonempty : vs ≠ [].
Hypothesis vs_nodup : NoDup vs.
Hypothesis vs_variables : forallb is_variable vs = true.

Local Abbreviation models := (zip vs <$> all_assignments (length vs)).

Lemma model_of_assignment m :
  m ∈ models → ∃ u, m = zip vs u ∧ length u = length vs.
Proof.
  intros (u & -> & Hu)%list_elem_of_fmap. exists u. split; [done|].
  by apply all_assignments_each_length.
Qed.

Lemma model_facts m :
  m ∈ models → Dict.keys m = vs ∧ is_model m = true ∧ m ≠ [].
Proof.
  intros (u & -> & Hu)%model_of_assignment.
  pose proof (keys_zip vs u Hu) as Hkeys. split_and!; [done| |].
  - unfold is_model. by rewrite Hkeys.
  - intros Hnil. rewrite Hnil in Hkeys. by symmetry in Hkeys.
Qed.

Lemma models_nodup : NoDup models.
Proof.
  apply NoDup_fmap_2_strong; [|apply all_assignments_nodup].
  intros u u' Hu Hu' Hzip.
  apply all_assignments_each_length in Hu, Hu'.
  rewrite <- (snd_zip vs u), <- (snd_zip vs u') by lia. by rewrite Hzip.
Qed.

Lemma holds_clause_of_model m m' :
  m ∈ models → m' ∈ models → holds m' (clause_of m) = bool_decide (m = m').
Proof.
  intros Hm Hm'. destruct (model_facts m Hm) as (_ & _ & Hne).
  apply model_of_assignment in Hm as (u & -> & Hu).
  apply model_of_assignment in Hm' as (u' & -> & Hu').
  rewrite holds_clause_of, forallb_agrees_on_zip by done.
  apply bool_decide_ext. split; [by intros ->|].
  intros Hzip. rewrite <- (snd_zip vs u), <- (snd_zip vs u') by lia. by rewrite Hzip.
Qed.

Lemma variables_dnf s ss :
  (∀ m, m ∈ s :: ss → m ∈ models) →
  variables (foldl (Binary Or) (clause_of s) (clause_of <$> ss)) ⊆ list_to_set vs.
Proof.
  intros Hsel.
  assert (∀ m, m ∈ s :: ss → variables (clause_of m) = list_to_set vs) as Hvars.
  { intros m Hm. destruct (model_facts m (Hsel m Hm)) as (Hkeys & _ & Hne).
    by rewrite variables_clause_of, Hkeys. }
  rewrite variables_foldl_Or. intros x [Hx|Hx]%elem_of_union.
  - rewrite <- (Hvars s); [done|by left].
  - apply elem_of_union_list in Hx as (X & HX & Hx).
    apply list_elem_of_fmap in HX as (c & -> & Hc).
    apply list_elem_of_fmap in Hc as (m & -> & Hm).
    rewrite <- (Hvars m); [done|by right].
Qed.

Lemma holds_dnf m' s ss :
  (∀ m, m ∈ s :: ss → m ∈ models) → m' ∈ models →
  holds m' (foldl (Binary Or) (clause_of s) (clause_of <$> ss))
  = bool_decide (m' ∈ s :: ss).
Proof.
  intros Hsel Hm'. rewrite holds_foldl_Or.
  rewrite <- (existsb_bool_decide_eq (fun m => holds m' (clause_of m)) (s :: ss) m').
  - simpl. f_equal. clear Hsel.
    induction ss as [|m ss IH]; [done|]. simpl. f_equal. exact IH.
  - intros m Hm. apply holds_clause_of_model; [by apply Hsel|done].
Qed.

Lemma well_formed_dnf s ss :
  (∀ m, m ∈ s :: ss → m ∈ models) →
  well_formed (foldl (Binary Or) (clause_of s) (clause_of <$> ss)) = true.
Proof.
  intros Hsel. apply well_formed_foldl_Or.
  - apply well_formed_clause_of. apply (model_facts s), Hsel. by left.
  - apply Forall_fmap, Forall_forall. intros m Hm. simpl.
    apply well_formed_clause_of. apply (model_facts m), Hsel. by right.
Qed.

Lemma synthesize_correct values :
  length values = 2 ^ length vs →
  ∃ f,
    synthesize vs values = Ok f
    ∧ well_formed f = true
    ∧ all_models vs = Ok models
    ∧ truth_values f models = Ok values.
Proof.
  intros Hlen.
  pose proof (all_models_assignments vs vs_nodup vs_variables) as Hmodels.
  set (sel := selected (zip models values)).
  assert (∀ m, m ∈ sel → m ∈ models) as Hsel.
  { intros m Hm%elem_of_selected. by apply elem_of_zip_l in Hm. }
  assert (synthesize_clauses (zip models values) = Ok (clause_of <$> sel)) as Hclauses.
  { apply synthesize_clauses_Ok. intros m b Hin%elem_of_zip_l.
    by destruct (model_facts m Hin) as (_ & ? & ?). }
  assert (∃ v0, vs !! 0 = Some v0 ∧ is_variable v0 = true) as (v0 & Hv0 & Hvar0).
  { destruct vs as [|v0 vs']; [done|]. exists v0. split; [done|].
    simpl in vs_variables. by apply andb_true_iff in vs_variables as [? _]. }
  assert (∃ f, synthesize vs values = Ok f ∧ well_formed f = true
               ∧ ∀ m', m' ∈ models →
                   model_covers m' f ∧ holds m' f = bool_decide (m' ∈ sel))
    as (f & Hrun & Hwf & Hholds).
  { unfold synthesize. rewrite assert_true_bind by (destruct vs; done).
    rewrite Hmodels. simpl. rewrite Hclauses. simpl.
    destruct sel as [|s ss] eqn:Hs; simpl.
    - rewrite Hv0. simpl. eexists. split; [done|]. simpl. rewrite Hvar0.
      split; [done|]. intros m' Hm'. destruct (model_facts m' Hm') as (Hkeys & _ & _).
      split.
      + unfold model_covers. rewrite Hkeys. simpl.
        apply list_elem_of_lookup_2 in Hv0. set_solver.
      + cbn [holds]. by destruct (default false (Dict.get m' v0)).
    - eexists. split; [done|]. split; [by apply well_formed_dnf|].
      intros m' Hm'. destruct (model_facts m' Hm') as (Hkeys & _ & _). split.
      + unfold model_covers. rewrite Hkeys. by apply variables_dnf.
      + by apply holds_dnf. }
  exists f. split_and!; [done..|].
  rewrite truth_values_Ok.
  2: { intros m Hm. destruct (model_facts m Hm) as (_ & Hmodel & _).
       apply evaluate_Ok; [done|]. by apply Hholds. }
  f_equal. apply list_eq. intros k. rewrite list_lookup_fmap.
  assert (length models = length values) as Hlen'.
  { by rewrite length_fmap, all_assignments_length. }
  destruct (values !! k) as [b|] eqn:Hb.
  - destruct (lookup_lt_is_Some_2 models k) as [m Hm].
    { rewrite Hlen'. by eapply lookup_lt_Some. }
    etrans; [exact (f_equal (fmap (fun m => holds m f)) Hm)|]. simpl. f_equal.
    destruct (Hholds m) as [_ ->]; [by eapply list_elem_of_lookup_2|].
    by apply (selected_lookup models values k m b models_nodup).
  - assert (models !! k = None) as Hm.
    { apply lookup_ge_None. rewrite Hlen'. by apply lookup_ge_None. }
    exact (f_equal (fmap (fun m => holds m f)) Hm).
Qed.

End synthesize.

(** ** [rule_nonsoundness_from_specialization_nonsoundness] *)

Lemma new_model_loop_Ok σ model vars : ∀ acc,
  is_model model = true →
  (∀ v, v ∈ vars → ∃ g, Dict.get σ v = Some g ∧ model_covers model g) →
  new_model_loop σ model vars acc = Ok (new_model_of σ model vars acc).
Proof.
  induction vars as [|v vars IH]; intros acc Hm Hvars; simpl; [done|].
  destruct (Hvars v) as (g & Hg & Hcov); [by left|].
  rewrite Hg. simpl. rewrite (evaluate_Ok model g Hm Hcov). simpl.
  rewrite IH; [|done|intros w Hw; apply Hvars; by right].
  done.
Qed.

Lemma get_new_model_of σ model vars : ∀ acc v,
  Dict.get (new_model_of σ model vars acc) v
  = if decide (v ∈ vars) then Some (holds model (substitute_variables σ (Var v)))
    else Dict.get acc v.
Proof.
  induction vars as [|w vars IH]; intros acc v.
  - rewrite decide_False; [done|]. intros Hv. by apply elem_of_nil in Hv.
  - change (new_model_of σ model (w :: vars) acc)
      with (new_model_of σ model vars
              (Dict.set acc w (holds model (substitute_variables σ (Var w))))).
    rewrite IH, get_set.
    destruct (decide (v ∈ vars)) as [Hin|Hnin].
    + rewrite decide_True; [done|by right].
    + destruct (decide (w = v)) as [->|Hne].
      * rewrite decide_True; [done|by left].
      * rewrite decide_False; [done|]. intros [?|?]%elem_of_cons; congruence.
Qed.

Lemma holds_substitute σ model nm g0 :
  (∀ x, x ∈ variables g0 →
        Dict.get nm x = Some (holds model (substitute_variables σ (Var x)))) →
  holds nm g0 = holds model (substitute_variables σ g0).
Proof.
  induction g0 as [x|b|g IH|op g IHg h IHh]; intros Hnm.
  - cbn [holds]. rewrite (Hnm x); [done|]. simpl. set_solver.
  - done.
  - simpl. by rewrite IH.
  - simpl. rewrite IHg, IHh; [done|intros x Hx; apply Hnm; simpl; set_solver..].
Qed.

Lemma variables_substitute σ g0 x g :
  x ∈ variables g0 → Dict.get σ x = Some g →
  variables g ⊆ variables (substitute_variables σ g0).
Proof.
  intros Hx Hg. induction g0 as [y|b|g1 IH|op g1 IH1 g2 IH2]; simpl in *.
  - apply elem_of_singleton in Hx as ->. by rewrite Hg.
  - set_solver.
  - by apply IH.
  - apply elem_of_union in Hx as [Hx|Hx]; [specialize (IH1 Hx)|specialize (IH2 Hx)];
      set_solver.
Qed.

Lemma rule_nonsoundness_correct general specialization model :
  specialization_of specialization general →
  is_model model = true →
  (∀ g, g ∈ rule_formulas specialization → model_covers model g) →
  ∃ σ,
    let bad_model := new_model_of σ model (elements (rule_variables general)) [] in
    specialization_map general specialization = Some σ
    ∧ specialize general σ = specialization
    ∧ rule_nonsoundness_from_specialization_nonsoundness general specialization model
      = Ok bad_model
    ∧ (∀ x, x ∈ Dict.keys bad_model ↔ x ∈ rule_variables general)
    ∧ (∀ g0, g0 ∈ rule_formulas general →
             holds bad_model g0 = holds model (substitute_variables σ g0)).
Proof.
  intros Hspec Hm Hcov.
  pose proof (proj2 (is_specialization_of_spec _ _) Hspec) as Hb.
  pose proof Hb as Hsome. unfold is_specialization_of in Hsome.
  apply bool_decide_eq_true in Hsome as [σ Hσ].
  destruct (specialization_map_sound _ _ _ Hσ) as [Hspecialize Hdom].
  exists σ. intros bad_model.
  assert (∀ x, x ∈ Dict.keys bad_model ↔ x ∈ rule_variables general) as Hkeys.
  { intros x. rewrite <- get_Some_keys. unfold bad_model. rewrite get_new_model_of.
    destruct (decide (x ∈ elements (rule_variables general))) as [Hin|Hnin].
    - split; [intros _; by apply elem_of_elements|by eauto].
    - split; [by intros [? ?]|]. intros Hx. by apply elem_of_elements in Hx. }
  split_and!; [done|done| |done|].
  - unfold rule_nonsoundness_from_specialization_nonsoundness.
    rewrite assert_true_bind by done.
    unfold evaluate_inference. rewrite assert_true_bind by done. simpl.
    rewrite Hσ. simpl. apply new_model_loop_Ok; [done|].
    intros v Hv%elem_of_elements. destruct (Hdom v Hv) as [g Hg].
    exists g. split; [done|].
    unfold rule_variables in Hv. apply elem_of_union_list in Hv as (X & HX & Hv).
    apply list_elem_of_fmap in HX as (g0 & -> & Hg0).
    unfold model_covers.
    transitivity (variables (substitute_variables σ g0));
      [by eapply variables_substitute|].
    apply Hcov. rewrite <- Hspecialize, rule_formulas_specialize.
    apply list_elem_of_fmap. by exists g0.
  - intros g0 Hg0. apply holds_substitute. intros x Hx.
    unfold bad_model. rewrite get_new_model_of, decide_True; [done|].
    apply elem_of_elements. unfold rule_variables. apply elem_of_union_list.
    exists (variables g0). split; [|done]. apply list_elem_of_fmap. by exists g0.
Qed.

(** ** [nonsound_rule_of_nonsound_proof] *)

Lemma evaluate_Ok_inv model f b :
  evaluate f model = Ok b →
  is_model model = true ∧ model_covers model f ∧ holds model f = b.
Proof.
  intros Hev.
  destruct (decide (is_model model = true ∧ model_covers model f)) as [[Hm Hcov]|Hnot].
  - rewrite evaluate_Ok in Hev by done. by injection Hev as <-.
  - by rewrite evaluate_Raise in Hev.
Qed.

Lemma index_of_first line lines i :
  lines !! i = Some line →
  ∃ idx, index_of line lines = Some idx ∧ idx ≤ i ∧ lines !! idx = Some line.
Proof.
  revert i. induction lines as [|line' lines IH]; intros i Hi; [done|]. simpl.
  destruct (decide (line' = line)) as [->|Hne].
  - exists 0. split_and!; [done|lia|done].
  - destruct i as [|i]; [by injection Hi|]. simpl in Hi.
    destruct (IH i Hi) as (idx & -> & Hle & Hidx).
    exists (S idx). split_and!; [done|lia|done].
Qed.

Lemma rule_for_line_derived proof i f rule refs premises :
  lines proof !! i = Some (DerivedLine f rule refs) →
  mapM (fun a => formula <$> lines proof !! a) refs = Some premises →
  rule_for_line proof i = Ok (Some (mkInferenceRule premises f)).
Proof. intros Hi Hp. unfold rule_for_line. rewrite Hi. simpl. by rewrite Hp. Qed.

Lemma premises_Forall (L : list Line) (P : Formula → Prop) refs premises i :
  mapM (fun a => formula <$> L !! a) refs = Some premises →
  Forall (fun a => a < i) refs →
  (∀ j l, j < i → L !! j = Some l → P (formula l)) →
  Forall P premises.
Proof.
  intros Hp%mapM_Some Hrefs HP.
  induction Hp as [|a p refs premises Ha _ IH]; [done|].
  apply Forall_cons in Hrefs as [Hlt Hrefs]. constructor; [|by apply IH].
  destruct (L !! a) as [l|] eqn:Hl; [|done]. injection Ha as <-. by eapply HP.
Qed.

Section nonsound_rule.
Variables (proof : Proof) (model : Model).
Hypothesis proof_valid : is_valid proof = true.
Hypothesis model_ok : is_model model = true.
Hypothesis assumptions_hold :
  ∀ a, a ∈ assumptions (statement proof) → evaluate a model = Ok true.

(** The walk stops at the first derived line whose formula does not evaluate
    to [True]: with the pair when it evaluates to [False], with the
    assertion error of [evaluate] when it cannot be evaluated. *)
Lemma nonsound_rule_loop_outcome todo : ∀ visited,
  lines proof = visited ++ todo →
  Forall (fun line => evaluate (formula line) model = Ok true) visited →
  Exists (fun line => evaluate (formula line) model ≠ Ok true) todo →
  ∃ i f rule refs,
    lines proof !! i = Some (DerivedLine f rule refs)
    ∧ (∀ j line, j < i → lines proof !! j = Some line →
                 evaluate (formula line) model = Ok true)
    ∧ ((evaluate f model = Ok false
        ∧ ∃ premises σ,
            let bad_model := new_model_of σ model (elements (rule_variables rule)) [] in
            nonsound_rule_loop proof model todo = Ok (Some (rule, bad_model))
            ∧ rule_for_line proof i = Ok (Some (mkInferenceRule premises f))
            ∧ rule_nonsoundness_from_specialization_nonsoundness
                rule (mkInferenceRule premises f) model = Ok bad_model
            ∧ (∀ x, x ∈ Dict.keys bad_model ↔ x ∈ rule_variables rule)
            ∧ rule_holds bad_model rule = false)
       ∨ (evaluate f model = Raise AssertionError
          ∧ nonsound_rule_loop proof model todo = Raise AssertionError)).
Proof.
  pose proof (proj1 (is_valid_spec proof) proof_valid) as [_ Hok].
  induction todo as [|line todo IH]; intros visited Hsplit Hvisited Hexists.
  { by apply Exists_nil in Hexists. }
  assert (lines proof !! length visited = Some line) as Hi.
  { rewrite Hsplit. by apply list_lookup_middle. }
  assert (∀ j l, j < length visited → lines proof !! j = Some l →
                 evaluate (formula l) model = Ok true) as Hbefore.
  { intros j l Hj Hl. rewrite Hsplit, lookup_app_l in Hl by done.
    rewrite Forall_forall in Hvisited. apply Hvisited.
    by eapply list_elem_of_lookup_2. }
  assert (evaluate (formula line) model = Ok true →
          lines proof = (visited ++ [line]) ++ todo
          ∧ Forall (fun line => evaluate (formula line) model = Ok true) (visited ++ [line])
          ∧ Exists (fun line => evaluate (formula line) model ≠ Ok true) todo) as Hnext.
  { intros Htrue. split_and!.
    - by rewrite <- (assoc_L (++)).
    - apply Forall_app. split; [done|]. by constructor.
    - apply Exists_cons in Hexists as [Hfalse|Hrest]; [done|done]. }
  cbn [nonsound_rule_loop].
  destruct line as [f|f rule refs]; cbn [formula] in *.
  - (* an assumption line holds, because the assumptions do *)
    pose proof (Hok _ _ Hi) as Hline. simpl in Hline.
    pose proof (assumptions_hold f Hline) as Htrue. rewrite Htrue.
    destruct (Hnext Htrue) as (Hsplit' & Hvisited' & Hexists').
    exact (IH _ Hsplit' Hvisited' Hexists').
  - destruct (evaluate f model) as [[|]|e] eqn:Hf.
    + destruct (Hnext eq_refl) as (Hsplit' & Hvisited' & Hexists').
      exact (IH _ Hsplit' Hvisited' Hexists').
    + (* the first derived line that evaluates to [False] *)
      cbn [mbind result_bind negb].
      destruct (index_of_first _ _ _ Hi) as (idx & Hidx & Hle & Hline_idx).
      assert (idx = length visited) as ->.
      { destruct (decide (idx < length visited)) as [Hlt|?]; [|lia].
        pose proof (Hbefore idx _ Hlt Hline_idx) as Htrue. simpl in Htrue. congruence. }
      rewrite Hidx. simpl.
      destruct (Hok _ _ Hi) as (Hrule & Hrefs & premises & Hpremises & Hspec).
      rewrite (rule_for_line_derived proof _ f rule refs premises Hi Hpremises). simpl.
      assert (Forall (fun p => model_covers model p ∧ holds model p = true) premises)
        as Hprem.
      { eapply premises_Forall; [done|done|]. intros j l Hj Hl.
        by destruct (evaluate_Ok_inv _ _ _ (Hbefore j l Hj Hl)) as (_ & ? & ?). }
      destruct (evaluate_Ok_inv _ _ _ Hf) as (_ & Hcov_f & Hholds_f).
      destruct (rule_nonsoundness_correct rule (mkInferenceRule premises f) model)
        as (σ & Hmap & Hspecialize & Hrun & Hkeys & Hholds); [done|done| |].
      { intros g Hg. unfold rule_formulas in Hg. simpl in Hg.
        apply elem_of_app in Hg as [Hg|Hg%list_elem_of_singleton].
        - rewrite Forall_forall in Hprem. by apply Hprem.
        - by subst g. }
      rewrite Hrun. simpl.
      exists (length visited), f, rule, refs.
      split; [done|]. split; [done|]. left. split; [done|].
      exists premises, σ. split_and!; try done.
      { exact (rule_for_line_derived proof _ f rule refs premises Hi Hpremises). }
      unfold rule_holds. apply orb_false_iff. split.
      * apply negb_false_iff, forallb_forall. intros a Ha%list_elem_of_In.
        rewrite Hholds by (unfold rule_formulas; apply elem_of_app; by left).
        injection Hspecialize as Hassum _. rewrite Forall_forall in Hprem.
        apply Hprem. rewrite <- Hassum. apply list_elem_of_fmap. by exists a.
      * rewrite Hholds by (unfold rule_formulas; apply elem_of_app; right; by left).
        injection Hspecialize as _ ->. done.
    + (* the first derived line that cannot be evaluated *)
      assert (e = AssertionError) as ->.
      { destruct (decide (is_model model = true ∧ model_covers model f)) as [[? ?]|Hnot].
        - by rewrite evaluate_Ok in Hf.
        - rewrite evaluate_Raise in Hf by done. by injection Hf. }
      exists (length visited), f, rule, refs.
      split; [done|]. split; [done|]. right. done.
Qed.

End nonsound_rule.

(** ** More on [evaluate] and the decision procedures *)

Lemma holds_agree m1 m2 f :
  (∀ x, x ∈ variables f → default false (Dict.get m1 x) = default false (Dict.get m2 x)) →
  holds m1 f = holds m2 f.
Proof.
  induction f as [x|b|g IH|op g IHg h IHh]; intros Hagree; simpl.
  - apply Hagree. simpl. set_solver.
  - done.
  - by rewrite IH.
  - rewrite IHg, IHh; [done|intros x Hx; apply Hagree; simpl; set_solver..].
Qed.

Lemma get_zip_fmap {V} (g : string → V) vs v :
  v ∈ vs → Dict.get (zip vs (g <$> vs)) v = Some (g v).
Proof.
  induction vs as [|w vs IH]; intros Hv; [by apply elem_of_nil in Hv|]. simpl.
  destruct (decide (w = v)) as [->|Hne]; [done|].
  apply IH. by apply elem_of_cons in Hv as [?|?].
Qed.

(** Every model that covers a well-formed formula agrees, on the variables
    of the formula, with one of the models that [all_models] yields for
    them. *)
Lemma all_models_represent f model :
  well_formed f = true → model_covers model f →
  ∃ m, m ∈ zip (elements (variables f))
             <$> all_assignments (length (elements (variables f)))
       ∧ holds m f = holds model f.
Proof.
  intros Hwf Hcov. set (vars := elements (variables f)).
  set (u := (fun v => default false (Dict.get model v)) <$> vars).
  exists (zip vars u). split.
  - apply list_elem_of_fmap. exists u. split; [done|].
    apply all_assignments_complete. unfold u. by rewrite length_fmap.
  - apply holds_agree. intros x Hx. unfold u.
    rewrite get_zip_fmap; [done|]. by apply elem_of_elements.
Qed.

Lemma model_of_all_models f m :
  well_formed f = true →
  m ∈ zip (elements (variables f)) <$> all_assignments (length (elements (variables f))) →
  is_model m = true ∧ model_covers m f.
Proof.
  intros Hwf Hm. destruct (variables_list_ok f Hwf) as [Hnd Hvars].
  pose proof (all_models_keys _ _ m Hnd Hvars (all_models_assignments _ Hnd Hvars) Hm)
    as Hkeys.
  split.
  - unfold is_model. by rewrite Hkeys.
  - unfold model_covers. rewrite Hkeys. intros x Hx.
    by apply elem_of_list_to_set, elem_of_elements.
Qed.

Lemma is_tautology_Ok f :
  well_formed f = true →
  is_tautology f
  = Ok (forallb (fun m => holds m f)
          (zip (elements (variables f))
             <$> all_assignments (length (elements (variables f))))).
Proof.
  intros Hwf. destruct (variables_list_ok f Hwf) as [Hnd Hvars].
  unfold is_tautology. rewrite (all_models_assignments _ Hnd Hvars). simpl.
  apply py_all_Ok. intros m Hm.
  by apply (evaluate_all_models f _ m Hwf (all_models_assignments _ Hnd Hvars)).
Qed.

Lemma is_satisfiable_Ok f :
  well_formed f = true →
  is_satisfiable f
  = Ok (existsb (fun m => holds m f)
          (zip (elements (variables f))
             <$> all_assignments (length (elements (variables f))))).
Proof.
  intros Hwf. destruct (variables_list_ok f Hwf) as [Hnd Hvars].
  unfold is_satisfiable. rewrite (all_models_assignments _ Hnd Hvars). simpl.
  apply py_any_Ok. intros m Hm.
  by apply (evaluate_all_models f _ m Hwf (all_models_assignments _ Hnd Hvars)).
Qed.

Lemma evaluate_Not f m : evaluate (Not f) m = negb <$> evaluate f m.
Proof.
  rewrite (evaluate_unfold (Not f)). unfold model_variables.
  destruct (is_model m) eqn:Hm; simpl.
  2: { rewrite evaluate_Raise; [done|]. intros [? _]. congruence. }
  destruct (bool_decide (variables f ⊆ list_to_set (Dict.keys m))) eqn:Hcov; simpl.
  - by destruct (evaluate f m).
  - rewrite evaluate_Raise; [done|]. intros [_ Hc].
    apply bool_decide_eq_false in Hcov. by apply Hcov.
Qed.

Lemma py_all_ext {A} (f g : A → result bool) l :
  (∀ x, f x = g x) → py_all f l = py_all g l.
Proof.
  intros Hfg. induction l as [|x l IH]; simpl; [done|]. by rewrite Hfg, IH.
Qed.

Lemma model_covers_spec model f :
  model_covers model f ↔ ∀ x, x ∈ variables f → is_Some (Dict.get model x).
Proof.
  unfold model_covers. split; intros H x Hx.
  - apply get_Some_keys. specialize (H x Hx). by apply elem_of_list_to_set in H.
  - apply elem_of_list_to_set, get_Some_keys. by apply H.
Qed.

(** ** [all_models] and [synthesize] on arbitrary lists of names *)

Lemma keys_set {V} (d : dict V) k v x :
  x ∈ Dict.keys (Dict.set d k v) ↔ x = k ∨ x ∈ Dict.keys d.
Proof.
  rewrite <- !get_Some_keys, get_set.
  destruct (decide (k = x)) as [->|Hne].
  - split; [by left|by eauto].
  - split; [by right|]. intros [->|?]; [done|done].
Qed.

Lemma NoDup_keys_set {V} (d : dict V) k v :
  NoDup (Dict.keys d) → NoDup (Dict.keys (Dict.set d k v)).
Proof.
  unfold Dict.keys. induction d as [|[k' v'] d IH]; simpl; intros Hnd.
  - apply NoDup_singleton.
  - apply NoDup_cons in Hnd as [Hk' Hnd].
    destruct (decide (k' = k)) as [->|Hne]; simpl.
    + by apply NoDup_cons.
    + apply NoDup_cons. split; [|by apply IH].
      intros Hin. apply (keys_set d k v k') in Hin as [?|?]; [congruence|done].
Qed.

Lemma keys_fill_model n i vs : ∀ j model x,
  x ∈ Dict.keys (fill_model n i j vs model) ↔ x ∈ Dict.keys model ∨ x ∈ vs.
Proof.
  induction vs as [|v vs IH]; intros j model x; simpl.
  - rewrite elem_of_nil. naive_solver.
  - rewrite IH, keys_set, elem_of_cons. naive_solver.
Qed.

Lemma NoDup_keys_fill_model n i vs : ∀ j model,
  NoDup (Dict.keys model) → NoDup (Dict.keys (fill_model n i j vs model)).
Proof.
  induction vs as [|v vs IH]; intros j model Hnd; simpl; [done|].
  by apply IH, NoDup_keys_set.
Qed.

Lemma get_fill_model_other n i vs : ∀ j model v,
  v ∉ vs → Dict.get (fill_model n i j vs model) v = Dict.get model v.
Proof.
  induction vs as [|w vs IH]; intros j model v Hv; simpl; [done|].
  apply not_elem_of_cons in Hv as [Hne Hv]. rewrite IH by done.
  by rewrite get_set_ne.
Qed.

(** The value of a name is the bit of its last position in the list. *)
Lemma get_fill_model_last n i vs : ∀ j model k v,
  vs !! k = Some v →
  (∀ k', k < k' → vs !! k' ≠ Some v) →
  Dict.get (fill_model n i j vs model) v
  = Some (Z.testbit i (Z.of_nat (n - 1 - (j + k)))).
Proof.
  induction vs as [|w vs IH]; intros j model k v Hk Hlast; [done|].
  destruct k as [|k]; simpl in Hk |- *.
  - injection Hk as ->. rewrite get_fill_model_other.
    + rewrite get_set_eq, bool_of_int_land_shiftr by lia. by rewrite Nat.add_0_r.
    + intros Hin. apply list_elem_of_lookup in Hin as [k' Hk'].
      by apply (Hlast (S k')); [lia|].
  - rewrite (IH (S j) _ k v Hk).
    + do 3 f_equal. lia.
    + intros k' Hlt. apply (Hlast (S k')). lia.
Qed.

Lemma all_models_Ok vs :
  forallb is_variable vs = true →
  all_models vs
  = Ok ((fun i => fill_model (length vs) i 0 vs []) <$> seqZ 0 (2 ^ Z.of_nat (length vs))).
Proof. intros Hvars. unfold all_models. by rewrite assert_true_bind. Qed.

Lemma fill_model_facts vs i :
  vs ≠ [] → forallb is_variable vs = true →
  is_model (fill_model (length vs) i 0 vs []) = true
  ∧ fill_model (length vs) i 0 vs [] ≠ [].
Proof.
  intros Hne Hvars. split.
  - apply forallb_forall. intros x Hx%list_elem_of_In%keys_fill_model.
    destruct Hx as [Hx|Hx]; [by apply elem_of_nil in Hx|].
    rewrite forallb_forall in Hvars. by apply Hvars, list_elem_of_In.
  - intros Hnil. destruct vs as [|v vs']; [done|].
    assert (v ∈ Dict.keys (fill_model (length (v :: vs')) i 0 (v :: vs') [])) as Hv.
    { apply keys_fill_model. right. by left. }
    rewrite Hnil in Hv. by apply elem_of_nil in Hv.
Qed.

Lemma is_conjunctive_clause_of m : m ≠ [] → is_conjunctive_clause (clause_of m) = true.
Proof.
  destruct m as [|item items]; [done|]. intros _. simpl.
  assert (∀ it, is_literal (atom_of it) = true) as Hlit.
  { intros [v [|]]; done. }
  assert (∀ res, is_conjunctive_clause res = true →
            is_conjunctive_clause
              (foldl (fun res it => Binary And res (atom_of it)) res items) = true) as H.
  { induction items as [|it items IH]; intros res Hres; simpl; [done|].
    apply IH. simpl. by rewrite Hres, Hlit. }
  apply H. specialize (Hlit item). by destruct (atom_of item) as [| |[]|].
Qed.

Lemma is_dnf_foldl_Or clauses : ∀ clause,
  is_dnf clause = true →
  Forall (fun c => is_conjunctive_clause c = true) clauses →
  is_dnf (foldl (Binary Or) clause clauses) = true.
Proof.
  induction clauses as [|c clauses IH]; intros clause Hc Hcs; simpl; [done|].
  apply Forall_cons in Hcs as [Hc' Hcs]. apply IH; [|done]. simpl. by rewrite Hc, Hc'.
Qed.

Lemma is_conjunctive_clause_dnf c : is_conjunctive_clause c = true → is_dnf c = true.
Proof.
  destruct c as [| | |[] g h]; simpl; try done.
Qed.

Lemma synthesize_clauses_resize (models : list Model) : ∀ values,
  synthesize_clauses (zip models values)
  = synthesize_clauses (zip models (resize (length models) false values)).
Proof.
  induction models as [|m models IH]; intros values; [done|].
  destruct values as [|b values].
  - transitivity (synthesize_clauses (zip models (resize (length models) false []))).
    + rewrite <- (IH []). by destruct models.
    + simpl. by rewrite resize_nil.
  - simpl. by rewrite IH.
Qed.

Lemma get_elem_of {V} (d : dict V) k v :
  NoDup (Dict.keys d) → (k, v) ∈ d → Dict.get d k = Some v.
Proof.
  unfold Dict.keys. induction d as [|[k' v'] d IH]; simpl; intros Hnd Hin.
  - by apply elem_of_nil in Hin.
  - apply NoDup_cons in Hnd as [Hk' Hnd].
    apply elem_of_cons in Hin as [[= -> ->]|Hin]; [by rewrite decide_True|].
    rewrite decide_False; [by apply IH|].
    intros ->. apply Hk'. apply list_elem_of_fmap. by exists (k, v).
Qed.

Lemma length_all_models vs models :
  all_models vs = Ok models → length models = 2 ^ length vs.
Proof.
  unfold all_models. destruct (forallb is_variable vs); [|done]. simpl.
  intros [= <-]. rewrite length_fmap, length_seqZ.
  rewrite Z2Nat.inj_pow by lia. by rewrite Nat2Z.id.
Qed.

(** ** More on the soundness and deduction functions *)

Lemma nonsound_rule_loop_all_true proof model todo :
  (∀ line, line ∈ todo → evaluate (formula line) model = Ok true) →
  nonsound_rule_loop proof model todo = Ok None.
Proof.
  induction todo as [|line todo IH]; intros Htrue; [done|].
  cbn [nonsound_rule_loop]. rewrite (Htrue line) by (by left).
  cbn [mbind result_bind].
  destruct line as [f|f rule refs]; simpl; apply IH; intros l Hl; apply Htrue; by right.
Qed.

(** The number of lines that [remove_assumption] writes for a line. *)
Lemma remove_assumption_step_length proof psi i line NL mapping NL' mapping' :
  remove_assumption_step proof psi i line NL mapping = Ok (NL', mapping') →
  length NL'
  = length NL + (if bool_decide (formula line = psi) && is_assumption line then 1 else 3).
Proof.
  unfold remove_assumption_step.
  destruct (bool_decide (formula line = psi) && is_assumption line).
  { simpl. intros [= <- _]. by rewrite length_app. }
  destruct (is_direct line).
  { simpl. intros [= <- _]. rewrite !length_app. simpl. lia. }
  destruct line as [f|f rule [|j [|k [|? ?]]]]; try done.
  destruct (lines proof !! j) as [line_j|]; [|done]. simpl.
  destruct (mapping !! k) as [mk|]; [|done]. simpl.
  destruct (mapping !! j) as [mj|]; [|done]. simpl.
  intros [= <- _]. rewrite !length_app. simpl. lia.
Qed.

Lemma remove_assumption_loop_length proof psi todo : ∀ i NL mapping NL',
  remove_assumption_loop proof psi i todo NL mapping = Ok NL' →
  length NL' + 2 * length (filter (fun line => formula line = psi ∧ is_assumption line) todo)
  = length NL + 3 * length todo.
Proof.
  induction todo as [|line todo IH]; intros i NL mapping NL'; simpl.
  - intros [= <-]. lia.
  - destruct (remove_assumption_step proof psi i line NL mapping) as [[NL1 m1]|e] eqn:Hstep;
      [|done].
    simpl. intros Hloop. apply IH in Hloop.
    apply remove_assumption_step_length in Hstep.
    rewrite filter_cons. destruct (decide (formula line = psi ∧ is_assumption line)) as [[Hf Ha]|Hn].
    + rewrite bool_decide_eq_true_2 in Hstep by done.
      destruct (is_assumption line); [|done]. simpl in *. lia.
    + destruct (bool_decide (formula line = psi) && is_assumption line) eqn:Hb.
      * apply andb_true_iff in Hb as [Hf%bool_decide_eq_true Ha].
        exfalso. apply Hn. by rewrite Ha.
      * lia.
Qed.

Lemma remove_assumption_lines proof :
  is_valid proof = true →
  0 < length (assumptions (statement proof)) →
  (∀ rule, rule ∈ rules proof → rule_allowed rule = true) →
  ∃ gamma psi new_lines mapping,
    assumptions (statement proof) = gamma ++ [psi]
    ∧ remove_assumption_loop proof psi 0 (lines proof) [] ∅ = Ok new_lines
    ∧ remove_assumption proof
      = Ok (mkProof (mkInferenceRule gamma (psi ⟶ conclusion (statement proof)))
                    (rules proof ∪ {[ MP; I0; I1; D ]})
                    new_lines)
    ∧ remove_assumption_inv (lines proof) psi gamma (rules proof ∪ {[ MP; I0; I1; D ]})
        (length (lines proof)) new_lines mapping.
Proof.
  intros Hv Hlen Hallowed.
  destruct (last (assumptions (statement proof))) as [psi|] eqn:Hlast.
  2: { apply last_None in Hlast. rewrite Hlast in Hlen. simpl in Hlen. lia. }
  pose proof (take_last_split _ _ Hlast) as Hsplit.
  set (gamma := take (length (assumptions (statement proof)) - 1)
                     (assumptions (statement proof))) in *.
  pose proof (proj1 (is_valid_spec proof) Hv) as [_ Hok].
  destruct (remove_assumption_loop_correct proof psi gamma
              (rules proof ∪ {[ MP; I0; I1; D ]})) with
    (todo := lines proof) (i := 0) (NL := @nil Line) (mapping := (∅ : gmap nat nat))
    as (NL & mapping & Hloop & Hinv); try done.
  { intros f Hf. rewrite Hsplit in Hf. apply elem_of_app in Hf as [Hf|Hf]; [by right|].
    left. by apply list_elem_of_singleton in Hf. }
  { split; [by intros i line|intros; lia|intros; lia]. }
  exists gamma, psi, NL, mapping. split_and!; [done|done| |done].
  unfold remove_assumption.
  rewrite !assert_true_bind;
    [|by apply forallb_elements_true|by apply Nat.ltb_lt|done].
  rewrite Hlast. simpl. fold gamma. by rewrite Hloop.
Qed.

Lemma evaluate_new_model general σ model g0 :
  (∀ g, g ∈ rule_formulas general → well_formed g = true) →
  g0 ∈ rule_formulas general →
  let bad_model := new_model_of σ model (elements (rule_variables general)) [] in
  (∀ x, x ∈ Dict.keys bad_model ↔ x ∈ rule_variables general) →
  evaluate g0 bad_model = Ok (holds bad_model g0).
Proof.
  intros Hwf Hg0 bad_model Hkeys.
  assert (variables g0 ⊆ rule_variables general) as Hsub.
  { unfold rule_variables. intros x Hx. apply elem_of_union_list.
    exists (variables g0). split; [|done]. apply list_elem_of_fmap. by exists g0. }
  apply evaluate_Ok.
  - apply forallb_forall. intros x Hx%list_elem_of_In%Hkeys.
    unfold rule_variables in Hx. apply elem_of_union_list in Hx as (X & HX & Hx).
    apply list_elem_of_fmap in HX as (g1 & -> & Hg1).
    eapply well_formed_variables; [|done]. by apply Hwf.
  - intros x Hx. apply elem_of_list_to_set, Hkeys, Hsub, Hx.
Qed.

(** * The claims about the deduction maneuvers *)

Lemma rule_allowed_spec rule :
  rule_allowed rule = true ↔ rule = MP ∨ assumptions rule = [].
Proof.
  unfold rule_allowed. rewrite orb_true_iff, !bool_decide_eq_true.
  split; (intros [H|H]; [by left|right]).
  - by apply nil_length_inv.
  - by rewrite H.
Qed.

(** C1. For every valid proof whose assumptions are [gamma ++ [psi]], whose
    conclusion is [C], and whose rules other than Modus Ponens have no
    assumptions, [remove_assumption] returns a valid proof with the assumptions
    [gamma], the conclusion [psi ⟶ C], and the rules of the given proof
    together with [MP], [I0], [I1] and [D]. *)
Theorem remove_assumption_deduction_theorem proof gamma psi :
  is_valid proof = true →
  assumptions (statement proof) = gamma ++ [psi] →
  (∀ rule, rule ∈ rules proof → rule = MP ∨ assumptions rule = []) →
  ∃ proof',
    remove_assumption proof = Ok proof'
    ∧ is_valid proof' = true
    ∧ assumptions (statement proof') = gamma
    ∧ conclusion (statement proof') = psi ⟶ conclusion (statement proof)
    ∧ rules proof' = rules proof ∪ {[ MP; I0; I1; D ]}.
Proof.
  intros Hv Hassum Hrules.
  destruct (remove_assumption_correct proof)
    as (gamma' & psi' & new_lines & Hsplit & Hrun & Hvalid).
  - done.
  - rewrite Hassum, length_app. simpl. lia.
  - intros rule Hr. by apply rule_allowed_spec, Hrules.
  - rewrite Hassum in Hsplit. apply app_inj_tail in Hsplit as [<- <-].
    eexists. split; [exact Hrun|]. by split.
Qed.

Lemma remove_assumption_deduction_theorem_witness :
  is_valid sample_proof = true
  ∧ ∃ proof',
      remove_assumption sample_proof = Ok proof'
      ∧ is_valid proof' = true
      ∧ assumptions (statement proof') = []
      ∧ conclusion (statement proof') = Not (Var "q") ⟶ conclusion (statement sample_proof)
      ∧ rules proof' = rules sample_proof ∪ {[ MP; I0; I1; D ]}.
Proof.
  split; [vm_compute; reflexivity|].
  apply (remove_assumption_deduction_theorem sample_proof [] (Not (Var "q"))).
  - vm_compute; reflexivity.
  - reflexivity.
  - intros rule Hr. apply rule_allowed_spec.
    revert rule Hr. apply forallb_elements_true. vm_compute; reflexivity.
Defined.

(** C5. For every valid proof of [antecedent] and every assumptionless rule
    [conditional] of which [antecedent ⟶ consequent] is a specialization,
    [prove_corollary] returns the lines of the given proof followed by
    exactly two lines, the instance of [conditional] and the Modus Ponens
    line over the last given line and that instance; the last line carries
    [consequent], the assumptions are those of the given proof, and the rules
    are its rules together with [MP] and [conditional].  The returned proof
    is valid. *)
Theorem prove_corollary_lines antecedent_proof consequent conditional :
  is_valid antecedent_proof = true →
  assumptions conditional = [] →
  specialization_of
    (mkInferenceRule [] (conclusion (statement antecedent_proof) ⟶ consequent))
    conditional →
  ∃ proof',
    prove_corollary antecedent_proof consequent conditional = Ok proof'
    ∧ lines proof'
      = lines antecedent_proof
          ++ [DerivedLine (conclusion (statement antecedent_proof) ⟶ consequent)
                conditional [];
              DerivedLine consequent MP
                [length (lines antecedent_proof) - 1; length (lines antecedent_proof)]]
    ∧ formula <$> last (lines proof') = Some consequent
    ∧ conclusion (statement proof') = consequent
    ∧ assumptions (statement proof') = assumptions (statement antecedent_proof)
    ∧ rules proof' = rules antecedent_proof ∪ {[ MP; conditional ]}
    ∧ is_valid proof' = true.
Proof.
  intros Hv _ Hs.
  destruct (prove_corollary_correct antecedent_proof consequent conditional Hv Hs)
    as [Hrun Hvalid].
  eexists. split; [exact Hrun|]. simpl. split_and!; try done.
  by rewrite last_app.
Qed.

Lemma prove_corollary_lines_witness :
  ∃ proof',
    prove_corollary sample_proof (Var "x" ⟶ Not (Var "p" ⟶ Var "p")) I1 = Ok proof'
    ∧ lines proof'
      = lines sample_proof
          ++ [DerivedLine (Not (Var "p" ⟶ Var "p") ⟶ (Var "x" ⟶ Not (Var "p" ⟶ Var "p")))
                I1 [];
              DerivedLine (Var "x" ⟶ Not (Var "p" ⟶ Var "p")) MP [2; 3]]
    ∧ formula <$> last (lines proof') = Some (Var "x" ⟶ Not (Var "p" ⟶ Var "p"))
    ∧ conclusion (statement proof') = Var "x" ⟶ Not (Var "p" ⟶ Var "p")
    ∧ assumptions (statement proof') = [Not (Var "q")]
    ∧ rules proof' = rules sample_proof ∪ {[ MP; I1 ]}
    ∧ is_valid proof' = true.
Proof.
  apply (prove_corollary_lines sample_proof (Var "x" ⟶ Not (Var "p" ⟶ Var "p")) I1).
  - vm_compute; reflexivity.
  - reflexivity.
  - apply is_specialization_of_spec. vm_compute; reflexivity.
Defined.

(** C3. For valid proofs [p1] of [a1] and [p2] of [a2] with the same
    assumptions and the same rules, and an assumptionless rule of which
    [a1 ⟶ (a2 ⟶ consequent)] is a specialization, [combine_proofs] returns
    the lines of [p1], then the lines of [p2] with every line number that a
    derived line refers to increased by the number of lines of [p1], then the
    instance of the rule, the Modus Ponens line over the last line of [p1]
    and that instance, and the Modus Ponens line over the last line of [p2]
    and the line before; the assumptions are the shared ones and the rules
    the shared ones together with [MP] and the rule.  The returned proof is
    valid. *)
Theorem combine_proofs_lines p1 p2 consequent double_conditional :
  is_valid p1 = true →
  is_valid p2 = true →
  assumptions (statement p1) = assumptions (statement p2) →
  rules p1 = rules p2 →
  assumptions double_conditional = [] →
  specialization_of
    (mkInferenceRule []
       (conclusion (statement p1) ⟶ (conclusion (statement p2) ⟶ consequent)))
    double_conditional →
  let n1 := length (lines p1) in
  let n2 := length (lines p2) in
  ∃ proof' shifted,
    combine_proofs p1 p2 consequent double_conditional = Ok proof'
    ∧ lines proof'
      = lines p1 ++ shifted
          ++ [DerivedLine
                (conclusion (statement p1) ⟶ (conclusion (statement p2) ⟶ consequent))
                double_conditional [];
              DerivedLine (conclusion (statement p2) ⟶ consequent) MP [n1 - 1; n1 + n2];
              DerivedLine consequent MP [n1 + n2 - 1; n1 + n2 + 1]]
    ∧ length shifted = n2
    ∧ (∀ k f, lines p2 !! k = Some (AssumptionLine f) →
              shifted !! k = Some (AssumptionLine f))
    ∧ (∀ k f rule refs, lines p2 !! k = Some (DerivedLine f rule refs) →
              shifted !! k = Some (DerivedLine f rule ((fun a => a + n1) <$> refs)))
    ∧ assumptions (statement proof') = assumptions (statement p1)
    ∧ conclusion (statement proof') = consequent
    ∧ rules proof' = rules p1 ∪ {[ MP; double_conditional ]}
    ∧ is_valid proof' = true.
Proof.
  intros Hv1 Hv2 HA HR _ Hs n1 n2.
  destruct (combine_proofs_correct p1 p2 consequent double_conditional Hv1 Hv2 HA HR Hs)
    as [Hrun Hvalid].
  eexists _, (shift_line n1 <$> lines p2). split; [exact Hrun|]. simpl.
  split_and!; try done.
  - by rewrite length_fmap.
  - intros k f Hk. by rewrite list_lookup_fmap, Hk.
  - intros k f rule refs Hk. by rewrite list_lookup_fmap, Hk.
Qed.

Lemma combine_proofs_lines_witness :
  ∃ proof' shifted,
    combine_proofs sample_proof sample_proof (Not (Var "p" ⟶ Var "p")) I1 = Ok proof'
    ∧ lines proof'
      = lines sample_proof ++ shifted
          ++ [DerivedLine
                (Not (Var "p" ⟶ Var "p")
                 ⟶ (Not (Var "p" ⟶ Var "p") ⟶ Not (Var "p" ⟶ Var "p")))
                I1 [];
              DerivedLine (Not (Var "p" ⟶ Var "p") ⟶ Not (Var "p" ⟶ Var "p")) MP [2; 6];
              DerivedLine (Not (Var "p" ⟶ Var "p")) MP [5; 7]]
    ∧ length shifted = 3
    ∧ (∀ k f, lines sample_proof !! k = Some (AssumptionLine f) →
              shifted !! k = Some (AssumptionLine f))
    ∧ (∀ k f rule refs, lines sample_proof !! k = Some (DerivedLine f rule refs) →
              shifted !! k = Some (DerivedLine f rule ((fun a => a + 3) <$> refs)))
    ∧ shifted
      = [AssumptionLine (Not (Var "q"));
         DerivedLine (Not (Var "q") ⟶ Not (Var "p" ⟶ Var "p")) sample_rule [];
         DerivedLine (Not (Var "p" ⟶ Var "p")) MP [3; 4]]
    ∧ assumptions (statement proof') = [Not (Var "q")]
    ∧ conclusion (statement proof') = Not (Var "p" ⟶ Var "p")
    ∧ rules proof' = rules sample_proof ∪ {[ MP; I1 ]}
    ∧ is_valid proof' = true.
Proof.
  destruct (combine_proofs_lines sample_proof sample_proof (Not (Var "p" ⟶ Var "p")) I1)
    as (proof' & shifted & Hrun & Hlines & Hlen & Hassum & Hderived & HA & HC & HR & Hvalid).
  - vm_compute; reflexivity.
  - vm_compute; reflexivity.
  - reflexivity.
  - reflexivity.
  - reflexivity.
  - apply is_specialization_of_spec. vm_compute; reflexivity.
  - exists proof', shifted.
    repeat (split; [assumption|]).
    split; [|repeat (split; [assumption|]); assumption].
    pose proof (Hassum 0 _ eq_refl) as H0.
    pose proof (Hderived 1 _ _ _ eq_refl) as H1.
    pose proof (Hderived 2 _ _ _ eq_refl) as H2.
    destruct shifted as [|l0 [|l1 [|l2 [|l3 rest]]]]; try discriminate Hlen.
    simpl in H0, H1, H2. injection H0 as ->. injection H1 as ->. injection H2 as ->.
    reflexivity.
Defined.

(** C4. For every valid proof of [~(p->p)] whose last assumption is [~phi]
    and whose rules other than Modus Ponens have no assumptions,
    [prove_by_way_of_contradiction] returns a valid proof of [phi] from the
    other assumptions, by the rules of the given proof together with [MP],
    [I0], [I1], [D] and [N]; its lines are those of [remove_assumption]
    followed by the instance [(~phi->~(p->p))->((p->p)->phi)] of [N], a
    Modus Ponens line for [(p->p)->phi], an instance [p->p] of [I0], and a
    Modus Ponens line for [phi].  On [sample_proof], a proof of [~(p->p)]
    from the single assumption [~q], the result is a valid proof of [q] from
    no assumptions. *)
Theorem prove_by_way_of_contradiction_valid proof gamma phi :
  is_valid proof = true →
  conclusion (statement proof) = Not (Var "p" ⟶ Var "p") →
  assumptions (statement proof) = gamma ++ [Not phi] →
  (∀ rule, rule ∈ rules proof → rule = MP ∨ assumptions rule = []) →
  (∃ removed proof',
    let n := length (lines removed) in
    remove_assumption proof = Ok removed
    ∧ prove_by_way_of_contradiction proof = Ok proof'
    ∧ is_valid proof' = true
    ∧ statement proof' = mkInferenceRule gamma phi
    ∧ rules proof' = rules proof ∪ {[ MP; I0; I1; D; N ]}
    ∧ lines proof'
      = lines removed
          ++ [DerivedLine ((Not phi ⟶ Not (Var "p" ⟶ Var "p")) ⟶ ((Var "p" ⟶ Var "p") ⟶ phi))
                N [];
              DerivedLine ((Var "p" ⟶ Var "p") ⟶ phi) MP [n - 1; n];
              DerivedLine (Var "p" ⟶ Var "p") I0 [];
              DerivedLine phi MP [n + 2; n + 1]])
  ∧ (∃ proof',
      prove_by_way_of_contradiction sample_proof = Ok proof'
      ∧ is_valid proof' = true
      ∧ statement proof' = mkInferenceRule [] (Var "q")).
Proof.
  intros Hv Hconcl Hassum Hrules. split.
  - destruct (prove_by_way_of_contradiction_correct proof gamma phi)
      as (removed & Hremoved & Hrun & Hvalid); [done|done|done| |].
    { intros rule Hr. by apply rule_allowed_spec, Hrules. }
    eexists _, _. split; [exact Hremoved|]. split; [exact Hrun|].
    split; [exact Hvalid|]. simpl. split_and!; try done.
    set_solver.
  - destruct (prove_by_way_of_contradiction_correct sample_proof [] (Var "q"))
      as (removed & _ & Hrun & Hvalid); [by vm_compute|done|done| |].
    { apply forallb_elements_true. by vm_compute. }
    eexists. split; [exact Hrun|]. by split.
Qed.

Lemma prove_by_way_of_contradiction_valid_witness :
  ∃ proof',
    prove_by_way_of_contradiction sample_proof = Ok proof'
    ∧ is_valid proof' = true
    ∧ statement proof' = mkInferenceRule [] (Var "q").
Proof.
  apply (prove_by_way_of_contradiction_valid sample_proof [] (Var "q")).
  - vm_compute; reflexivity.
  - reflexivity.
  - reflexivity.
  - intros rule Hr. apply rule_allowed_spec.
    revert rule Hr. apply forallb_elements_true. vm_compute; reflexivity.
Defined.

Lemma valid_acyclic proof : is_valid proof = true → acyclic (lines proof).
Proof. intros Hv. apply is_valid_spec in Hv as [_ Hok]. by eapply lines_ok_acyclic. Qed.

(** C2. In every proof that [prove_corollary], [combine_proofs],
    [remove_assumption], [prove_from_opposites] and
    [prove_by_way_of_contradiction] return under their preconditions, every
    line number that a derived line refers to is below the number of that
    line. *)
Theorem deduction_outputs_acyclic :
  (∀ antecedent_proof consequent conditional,
     is_valid antecedent_proof = true →
     specialization_of
       (mkInferenceRule [] (conclusion (statement antecedent_proof) ⟶ consequent))
       conditional →
     ∃ proof', prove_corollary antecedent_proof consequent conditional = Ok proof'
               ∧ acyclic (lines proof'))
  ∧ (∀ p1 p2 consequent double_conditional,
       is_valid p1 = true →
       is_valid p2 = true →
       assumptions (statement p1) = assumptions (statement p2) →
       rules p1 = rules p2 →
       specialization_of
         (mkInferenceRule []
            (conclusion (statement p1) ⟶ (conclusion (statement p2) ⟶ consequent)))
         double_conditional →
       ∃ proof', combine_proofs p1 p2 consequent double_conditional = Ok proof'
                 ∧ acyclic (lines proof'))
  ∧ (∀ proof,
       is_valid proof = true →
       0 < length (assumptions (statement proof)) →
       (∀ rule, rule ∈ rules proof → rule = MP ∨ assumptions rule = []) →
       ∃ proof', remove_assumption proof = Ok proof' ∧ acyclic (lines proof'))
  ∧ (∀ proof_of_affirmation proof_of_negation conclusion',
       is_valid proof_of_affirmation = true →
       is_valid proof_of_negation = true →
       assumptions (statement proof_of_affirmation)
       = assumptions (statement proof_of_negation) →
       Not (conclusion (statement proof_of_affirmation))
       = conclusion (statement proof_of_negation) →
       rules proof_of_affirmation = rules proof_of_negation →
       ∃ proof',
         prove_from_opposites proof_of_affirmation proof_of_negation conclusion' = Ok proof'
         ∧ acyclic (lines proof'))
  ∧ (∀ proof gamma phi,
       is_valid proof = true →
       conclusion (statement proof) = Not (Var "p" ⟶ Var "p") →
       assumptions (statement proof) = gamma ++ [Not phi] →
       (∀ rule, rule ∈ rules proof → rule = MP ∨ assumptions rule = []) →
       ∃ proof', prove_by_way_of_contradiction proof = Ok proof' ∧ acyclic (lines proof')).
Proof.
  split_and!.
  - intros p c cond Hv Hs.
    destruct (prove_corollary_correct p c cond Hv Hs) as [Hrun Hvalid].
    eexists. split; [exact Hrun|]. by apply valid_acyclic.
  - intros p1 p2 c cond Hv1 Hv2 HA HR Hs.
    destruct (combine_proofs_correct p1 p2 c cond Hv1 Hv2 HA HR Hs) as [Hrun Hvalid].
    eexists. split; [exact Hrun|]. by apply valid_acyclic.
  - intros proof Hv Hlen Hrules.
    destruct (remove_assumption_correct proof Hv Hlen)
      as (gamma & psi & new_lines & _ & Hrun & Hvalid).
    { intros rule Hr. by apply rule_allowed_spec, Hrules. }
    eexists. split; [exact Hrun|]. by apply valid_acyclic.
  - intros pa pn c Hva Hvn HA HC HR.
    destruct (prove_from_opposites_correct pa pn c Hva Hvn HA HC HR)
      as (proof' & Hrun & _ & _ & Hvalid).
    exists proof'. split; [done|]. by apply valid_acyclic.
  - intros proof gamma phi Hv Hconcl Hassum Hrules.
    destruct (prove_by_way_of_contradiction_correct proof gamma phi Hv Hconcl Hassum)
      as (removed & _ & Hrun & Hvalid).
    { intros rule Hr. by apply rule_allowed_spec, Hrules. }
    eexists. split; [exact Hrun|]. by apply valid_acyclic.
Qed.

Lemma deduction_outputs_acyclic_witness :
  (∃ proof', prove_corollary sample_proof (Var "x" ⟶ Not (Var "p" ⟶ Var "p")) I1 = Ok proof'
             ∧ acyclic (lines proof'))
  ∧ (∃ proof', combine_proofs negation_proof affirmation_proof (Var "r") I2 = Ok proof'
               ∧ acyclic (lines proof'))
  ∧ (∃ proof', remove_assumption sample_proof = Ok proof' ∧ acyclic (lines proof'))
  ∧ (∃ proof', prove_from_opposites affirmation_proof negation_proof (Var "r") = Ok proof'
               ∧ acyclic (lines proof'))
  ∧ (∃ proof', prove_by_way_of_contradiction sample_proof = Ok proof'
               ∧ acyclic (lines proof')).
Proof.
  destruct deduction_outputs_acyclic as (Hcorollary & Hcombine & Hremove & Hopposites & Hcontra).
  split_and!.
  - apply Hcorollary; [vm_compute; reflexivity|].
    apply is_specialization_of_spec. vm_compute; reflexivity.
  - apply Hcombine; [vm_compute; reflexivity..|reflexivity|reflexivity|].
    apply is_specialization_of_spec. vm_compute; reflexivity.
  - apply Hremove; [vm_compute; reflexivity|simpl; lia|].
    intros rule Hr. apply rule_allowed_spec.
    revert rule Hr. apply forallb_elements_true. vm_compute; reflexivity.
  - apply Hopposites; try reflexivity; vm_compute; reflexivity.
  - apply (Hcontra sample_proof [] (Var "q")); [vm_compute; reflexivity|reflexivity..|].
    intros rule Hr. apply rule_allowed_spec.
    revert rule Hr. apply forallb_elements_true. vm_compute; reflexivity.
Defined.

(** * The claims about the semantics *)

Lemma values_zip (vs : list string) (l : list (list bool)) :
  Forall (fun u => length u = length vs) l →
  (fun m : Model => m.*2) <$> (zip vs <$> l) = l.
Proof.
  induction 1 as [|u l Hu _ IH]; [done|]. simpl. f_equal; [|exact IH].
  apply snd_zip. lia.
Qed.

(** C9. For every list of [n] distinct variable names, [all_models] yields
    exactly [2 ^ n] models; the keys of each are exactly the given names;
    the models come in lexicographic order of the values they give to the
    names in the given order, the first name counting most and [false]
    before [true]; every assignment to the names is among them.  For
    [['p', 'q']] the models are FF, FT, TF, TT in this order. *)
Theorem all_models_lexicographic vs :
  NoDup vs →
  Forall (fun v => is_variable v = true) vs →
  (∃ models,
     all_models vs = Ok models
     ∧ length models = 2 ^ length vs
     ∧ (∀ m, m ∈ models → Dict.keys m = vs)
     ∧ StronglySorted lex_lt ((fun m : Model => m.*2) <$> models)
     ∧ (∀ assignment, length assignment = length vs → zip vs assignment ∈ models))
  ∧ all_models ["p"; "q"]
    = Ok [[("p", false); ("q", false)]; [("p", false); ("q", true)];
          [("p", true); ("q", false)]; [("p", true); ("q", true)]].
Proof.
  intros Hnd Hvars. split; [|by vm_compute].
  assert (forallb is_variable vs = true) as Hvars'.
  { apply forallb_forall. rewrite Forall_forall in Hvars.
    intros v Hv. by apply Hvars, list_elem_of_In. }
  exists (zip vs <$> all_assignments (length vs)).
  split; [by apply all_models_assignments|]. split_and!.
  - by rewrite length_fmap, all_assignments_length.
  - intros m (u & -> & Hu)%list_elem_of_fmap.
    apply keys_zip. by apply all_assignments_each_length.
  - rewrite values_zip; [apply all_assignments_sorted|].
    apply Forall_forall. intros u Hu. by apply all_assignments_each_length.
  - intros u Hu. apply list_elem_of_fmap. exists u. split; [done|].
    by apply all_assignments_complete.
Qed.

Lemma all_models_lexicographic_witness :
  ∃ models,
    all_models ["q"; "p"; "r"] = Ok models
    ∧ length models = 2 ^ 3
    ∧ (∀ m, m ∈ models → Dict.keys m = ["q"; "p"; "r"])
    ∧ StronglySorted lex_lt ((fun m : Model => m.*2) <$> models)
    ∧ (∀ assignment, length assignment = 3 → zip ["q"; "p"; "r"] assignment ∈ models).
Proof.
  apply (all_models_lexicographic ["q"; "p"; "r"]).
  - apply (bool_decide_unpack _). vm_compute. exact I.
  - repeat constructor.
Defined.

(** C10. For every formula, whose variables are variable names as the
    constructor of [Formula] checks, [is_satisfiable] returns the negation of
    what [is_contradiction] returns, and neither raises. *)
Theorem is_satisfiable_not_contradiction f :
  well_formed f = true →
  ∃ b, is_contradiction f = Ok b ∧ is_satisfiable f = Ok (negb b).
Proof.
  intros Hwf. unfold is_contradiction, is_satisfiable.
  destruct (variables_list_ok f Hwf) as [Hnd Hvars].
  pose proof (all_models_assignments _ Hnd Hvars) as Hmodels.
  rewrite Hmodels. simpl. rewrite py_any_all.
  erewrite (py_all_Ok _ (fun m => negb (holds m f))).
  - eexists. by split.
  - intros m Hm. by rewrite (evaluate_all_models f _ m Hwf Hmodels Hm).
Qed.

Lemma is_satisfiable_not_contradiction_witness :
  ∃ b, is_contradiction (Not (Binary And (Var "p") (Var "q76"))) = Ok b
       ∧ is_satisfiable (Not (Binary And (Var "p") (Var "q76"))) = Ok (negb b).
Proof.
  apply (is_satisfiable_not_contradiction (Not (Binary And (Var "p") (Var "q76")))).
  vm_compute; reflexivity.
Defined.

(** C8, as the code has it: for every nonempty list of distinct variable
    names and every sequence of [2 ^ n] truth values, [synthesize] returns a
    well-formed formula whose truth values in the models of [all_models], in
    order, are the given values; this includes the sequence of [false]
    only. *)
Theorem synthesize_truth_table vs values :
  vs ≠ [] →
  NoDup vs →
  Forall (fun v => is_variable v = true) vs →
  length values = 2 ^ length vs →
  ∃ f models,
    synthesize vs values = Ok f
    ∧ well_formed f = true
    ∧ all_models vs = Ok models
    ∧ truth_values f models = Ok values.
Proof.
  intros Hne Hnd Hvars Hlen.
  assert (forallb is_variable vs = true) as Hvars'.
  { apply forallb_forall. rewrite Forall_forall in Hvars.
    intros v Hv. by apply Hvars, list_elem_of_In. }
  destruct (synthesize_correct vs Hne Hnd Hvars' values Hlen) as (f & Hf).
  by exists f, (zip vs <$> all_assignments (length vs)).
Qed.

Lemma synthesize_truth_table_witness :
  (∃ f models,
     synthesize ["p"; "q"] [true; true; true; false] = Ok f
     ∧ well_formed f = true
     ∧ all_models ["p"; "q"] = Ok models
     ∧ truth_values f models = Ok [true; true; true; false])
  ∧ (∃ f models,
       synthesize ["p"; "q"] [false; false; false; false] = Ok f
       ∧ well_formed f = true
       ∧ all_models ["p"; "q"] = Ok models
       ∧ truth_values f models = Ok [false; false; false; false]).
Proof.
  split.
  - apply (synthesize_truth_table ["p"; "q"] [true; true; true; false]).
    + discriminate.
    + apply (bool_decide_unpack _). vm_compute. exact I.
    + repeat constructor.
    + reflexivity.
  - apply (synthesize_truth_table ["p"; "q"] [false; false; false; false]).
    + discriminate.
    + apply (bool_decide_unpack _). vm_compute. exact I.
    + repeat constructor.
    + reflexivity.
Defined.

(** C8, as stated, fails when a variable name is listed twice: for the
    variables [['p', 'p']] and the values [True, False, False, False], the
    synthesized formula is [~p], whose truth values in the four models of
    [all_models] are [True, False, True, False]. *)
Lemma synthesize_repeated_variable :
  ["p"; "p"] ≠ []
  ∧ forallb is_variable ["p"; "p"] = true
  ∧ length [true; false; false; false] = 2 ^ length ["p"; "p"]
  ∧ synthesize ["p"; "p"] [true; false; false; false] = Ok (Not (Var "p"))
  ∧ all_models ["p"; "p"]
    = Ok [[("p", false)]; [("p", true)]; [("p", false)]; [("p", true)]]
  ∧ truth_values (Not (Var "p"))
      [[("p", false)]; [("p", true)]; [("p", false)]; [("p", true)]]
    = Ok [true; false; true; false]
  ∧ [true; false; true; false] ≠ [true; false; false; false].
Proof. split_and!; try discriminate; by vm_compute. Qed.

(** C7. The bodies of [evaluate_inference] and [is_sound_inference] end
    after the docstring: for the rule with assumption [p] and conclusion [q]
    and the model [{'p': False, 'q': False}], where the docstring shows
    [True], [evaluate_inference] returns [None]; it returns [True] for no
    rule and no model, and [is_sound_inference] returns [None] for every
    rule. *)
Theorem evaluate_inference_returns_None :
  evaluate_inference (mkInferenceRule [Var "p"] (Var "q")) [("p", false); ("q", false)]
  = Ok None
  ∧ (∀ rule model, evaluate_inference rule model ≠ Ok (Some true))
  ∧ (∀ rule, is_sound_inference rule = Ok None).
Proof.
  split_and!; [done| |done].
  intros rule model. unfold evaluate_inference. by destruct (is_model model).
Qed.

(** * The claims about soundness *)

Lemma rules_well_formed_spec (R : gset InferenceRule) :
  forallb (fun rule => forallb well_formed (rule_formulas rule)) (elements R) = true
  ↔ ∀ rule g, rule ∈ R → g ∈ rule_formulas rule → well_formed g = true.
Proof.
  rewrite forallb_elements_true. split.
  - intros H rule g Hr Hg. specialize (H rule Hr). rewrite forallb_forall in H.
    by apply H, list_elem_of_In.
  - intros H rule Hr. apply forallb_forall. intros g Hg%list_elem_of_In. by eapply H.
Qed.

(** C6, as the code has it: for every valid proof whose statement does not
    hold in a model, [nonsound_rule_of_nonsound_proof] walks the lines in
    order; the formula of every assumption line is true in the model; the
    walk stops at a derived line, the first line whose formula does not
    evaluate to [True].  When the formula of that line evaluates to [False]
    the call returns the rule of that line with the model that
    [rule_nonsoundness_from_specialization_nonsoundness] builds from the
    instance of the rule at that line, and in the returned model the
    assumptions of the rule are true and its conclusion is false.  When the
    model gives no value to a variable of that line, so that no false line
    is found, the call fails with an assertion error.  In no case does the
    call return without a value. *)
Theorem nonsound_rule_of_nonsound_proof_outcome proof model :
  is_valid proof = true →
  (∀ rule g, rule ∈ rules proof → g ∈ rule_formulas rule → well_formed g = true) →
  Forall (fun a => evaluate a model = Ok true) (assumptions (statement proof)) →
  evaluate (conclusion (statement proof)) model = Ok false →
  (∀ j a, lines proof !! j = Some (AssumptionLine a) → evaluate a model = Ok true)
  ∧ (∃ i f rule refs,
       lines proof !! i = Some (DerivedLine f rule refs)
       ∧ (∀ j line, j < i → lines proof !! j = Some line →
                    evaluate (formula line) model = Ok true)
       ∧ ((evaluate f model = Ok false
           ∧ ∃ instance bad_model,
               nonsound_rule_of_nonsound_proof proof model = Ok (Some (rule, bad_model))
               ∧ rule_for_line proof i = Ok (Some instance)
               ∧ rule_nonsoundness_from_specialization_nonsoundness rule instance model
                 = Ok bad_model
               ∧ Forall (fun a => evaluate a bad_model = Ok true) (assumptions rule)
               ∧ evaluate (conclusion rule) bad_model = Ok false)
          ∨ (evaluate f model = Raise AssertionError
             ∧ nonsound_rule_of_nonsound_proof proof model = Raise AssertionError)))
  ∧ nonsound_rule_of_nonsound_proof proof model ≠ Ok None.
Proof.
  intros Hv Hwf Hassum Hconcl.
  destruct (evaluate_Ok_inv _ _ _ Hconcl) as (Hm & _ & _).
  rewrite Forall_forall in Hassum.
  destruct (valid_last_line _ Hv) as [Hn Hlast].
  pose proof (proj1 (is_valid_spec proof) Hv) as [_ Hok].
  assert (nonsound_rule_of_nonsound_proof proof model
          = nonsound_rule_loop proof model (lines proof)) as Hstart.
  { unfold nonsound_rule_of_nonsound_proof. rewrite assert_true_bind by done.
    unfold evaluate_inference. rewrite assert_true_bind by done. done. }
  destruct (nonsound_rule_loop_outcome proof model Hv Hm Hassum (lines proof) [])
    as (i & f & rule & refs & Hi & Hbefore & Hcase); [done|done| |].
  { destruct (lines proof !! (length (lines proof) - 1)) as [l|] eqn:Hl; [|done].
    injection Hlast as Hlast. apply Exists_exists. exists l.
    split; [by eapply list_elem_of_lookup_2|]. rewrite Hlast, Hconcl. discriminate. }
  split; [intros j a Hj; apply Hassum; exact (Hok _ _ Hj)|].
  destruct Hcase as [(Hf & premises & σ & Hloop & Hinstance & Hbad & Hkeys & Hrule)
                    |(Hf & Hloop)].
  - split; [|rewrite Hstart, Hloop; discriminate].
    exists i, f, rule, refs. split; [done|]. split; [done|]. left. split; [done|].
    set (bad_model := new_model_of σ model (elements (rule_variables rule)) []) in *.
    assert (rule ∈ rules proof) as Hrule_in.
    { by destruct (Hok _ _ Hi) as [? _]. }
    assert (∀ g0, g0 ∈ rule_formulas rule →
              evaluate g0 bad_model = Ok (holds bad_model g0)) as Hev.
    { intros g0 Hg0.
      assert (variables g0 ⊆ rule_variables rule) as Hsub.
      { unfold rule_variables. intros x Hx. apply elem_of_union_list.
        exists (variables g0). split; [|done]. apply list_elem_of_fmap. by exists g0. }
      apply evaluate_Ok.
      - apply forallb_forall. intros x Hx%list_elem_of_In%Hkeys.
        unfold rule_variables in Hx. apply elem_of_union_list in Hx as (X & HX & Hx).
        apply list_elem_of_fmap in HX as (g1 & -> & Hg1).
        eapply well_formed_variables; [|done]. by eapply Hwf.
      - intros x Hx. apply elem_of_list_to_set, Hkeys, Hsub, Hx. }
    unfold rule_holds in Hrule. apply orb_false_iff in Hrule as [Hall Hc].
    apply negb_false_iff in Hall. rewrite forallb_forall in Hall.
    exists (mkInferenceRule premises f), bad_model.
    split_and!; try done.
    + by rewrite Hstart.
    + apply Forall_forall. intros a Ha.
      rewrite Hev by (unfold rule_formulas; apply elem_of_app; by left).
      f_equal. by apply Hall, list_elem_of_In.
    + rewrite Hev by (unfold rule_formulas; apply elem_of_app; right; by left).
      by rewrite Hc.
  - split; [|rewrite Hstart, Hloop; discriminate].
    exists i, f, rule, refs. split; [done|]. split; [done|]. right.
    split; [done|]. by rewrite Hstart.
Qed.

Lemma nonsound_rule_of_nonsound_proof_outcome_witness :
  (∃ bad_model,
     nonsound_rule_of_nonsound_proof jump_proof [("x", true); ("y", false)]
     = Ok (Some (jump_rule, bad_model))
     ∧ rule_nonsoundness_from_specialization_nonsoundness
         jump_rule (mkInferenceRule [Var "x"] (Var "y")) [("x", true); ("y", false)]
       = Ok bad_model
     ∧ Forall (fun a => evaluate a bad_model = Ok true) [Var "p"]
     ∧ evaluate (Var "q") bad_model = Ok false)
  ∧ (∃ bad_model,
       nonsound_rule_of_nonsound_proof repeated_proof [("q", false)]
       = Ok (Some (unsound_rule, bad_model))
       ∧ rule_nonsoundness_from_specialization_nonsoundness
           unsound_rule (mkInferenceRule [] (Var "q")) [("q", false)]
         = Ok bad_model
       ∧ evaluate (Var "q") bad_model = Ok false)
  ∧ nonsound_rule_of_nonsound_proof unsound_proof [("q", false)] = Raise AssertionError.
Proof.
  split_and!.
  - destruct (nonsound_rule_of_nonsound_proof_outcome
                jump_proof [("x", true); ("y", false)])
      as (_ & (i & f & rule & refs & Hi & _ & Hcase) & _).
    + vm_compute; reflexivity.
    + apply rules_well_formed_spec. vm_compute; reflexivity.
    + repeat constructor.
    + vm_compute; reflexivity.
    + destruct i as [|[|i]]; [discriminate Hi| |destruct i; discriminate Hi].
      injection Hi as <- <- <-.
      destruct Hcase as [(_ & instance & bad_model & Hrun & Hinstance & Hbad & HA & HC)
                        |(Hf & _)]; [|discriminate Hf].
      injection Hinstance as <-.
      exists bad_model. split_and!; assumption.
  - destruct (nonsound_rule_of_nonsound_proof_outcome repeated_proof [("q", false)])
      as (_ & (i & f & rule & refs & Hi & Hbefore & Hcase) & _).
    + vm_compute; reflexivity.
    + apply rules_well_formed_spec. vm_compute; reflexivity.
    + constructor.
    + vm_compute; reflexivity.
    + destruct i as [|i].
      * injection Hi as <- <- <-.
        destruct Hcase as [(_ & instance & bad_model & Hrun & Hinstance & Hbad & _ & HC)
                          |(Hf & _)]; [|discriminate Hf].
        injection Hinstance as <-.
        exists bad_model. split_and!; assumption.
      * discriminate (Hbefore 0 _ (Nat.lt_0_succ i) eq_refl).
  - destruct (nonsound_rule_of_nonsound_proof_outcome unsound_proof [("q", false)])
      as (_ & (i & f & rule & refs & Hi & Hbefore & Hcase) & _).
    + vm_compute; reflexivity.
    + apply rules_well_formed_spec. vm_compute; reflexivity.
    + constructor.
    + vm_compute; reflexivity.
    + destruct i as [|i].
      * destruct Hcase as [(_ & instance & bad_model & Hrun & _)|(_ & Hrun)];
          [|exact Hrun].
        injection Hi as <- <- <-. discriminate Hrun.
      * discriminate (Hbefore 0 _ (Nat.lt_0_succ i) eq_refl).
Defined.

(** C6, as stated, fails for a model that gives a value to every variable of
    the statement but not to every variable of the lines: [unsound_proof] is
    valid, its statement, with no assumption and the conclusion [q], does not
    hold in [{'q': False}], and the call raises an assertion error at the
    first line [(x->x)] instead of returning the rule of the second line. *)
Lemma nonsound_rule_uncovered_line :
  is_valid unsound_proof = true
  ∧ Forall (fun a => evaluate a [("q", false)] = Ok true)
           (assumptions (statement unsound_proof))
  ∧ evaluate (conclusion (statement unsound_proof)) [("q", false)] = Ok false
  ∧ lines unsound_proof !! 1 = Some (DerivedLine (Var "q") unsound_rule [])
  ∧ evaluate (Var "q") [("q", false)] = Ok false
  ∧ nonsound_rule_of_nonsound_proof unsound_proof [("q", false)] = Raise AssertionError.
Proof. split_and!; try constructor; by vm_compute. Qed.

(** When every line is true in the model, the loop of
    [nonsound_rule_of_nonsound_proof] ends without [return]: the call
    returns [None] and raises nothing. *)
Lemma nonsound_rule_no_false_line :
  nonsound_rule_of_nonsound_proof
    (mkProof (mkInferenceRule [Var "p"] (Var "p")) ∅ [AssumptionLine (Var "p")])
    [("p", true)]
  = Ok None.
Proof. by vm_compute. Qed.

(** * Further properties of the code *)

(** ** [semantics.py] *)

(** X1. [evaluate] either returns the truth value of the formula or raises
    an assertion error, the latter exactly when the model has a key that is
    no variable name or gives no value to a variable of the formula; the
    lookup of a variable in the model never raises a key error. *)
Theorem evaluate_outcome f model :
  evaluate f model
  = if bool_decide (is_model model = true ∧ model_covers model f)
    then Ok (holds model f)
    else Raise AssertionError.
Proof.
  case_bool_decide as H.
  - destruct H as [Hm Hcov]. by apply evaluate_Ok.
  - by apply evaluate_Raise.
Qed.

(** X2. The value of a formula depends only on the values that the model
    gives to the variables of the formula: two models over variable names
    that agree on these variables give the same result, whatever else they
    contain and in whatever order. *)
Theorem evaluate_agree f m1 m2 :
  is_model m1 = true →
  is_model m2 = true →
  (∀ x, x ∈ variables f → Dict.get m1 x = Dict.get m2 x) →
  evaluate f m1 = evaluate f m2.
Proof.
  intros H1 H2 Hagree.
  assert (model_covers m1 f ↔ model_covers m2 f) as Hcov.
  { rewrite !model_covers_spec. split; intros Hc x Hx; specialize (Hc x Hx);
      [by rewrite <- Hagree|by rewrite Hagree]. }
  rewrite !evaluate_outcome.
  destruct (decide (model_covers m1 f)) as [Hc|Hc].
  - rewrite (bool_decide_eq_true_2 (_ ∧ model_covers m1 f)) by done.
    rewrite (bool_decide_eq_true_2 (_ ∧ model_covers m2 f)) by (split; [done|by apply Hcov]).
    f_equal. apply holds_agree. intros x Hx. by rewrite Hagree.
  - rewrite (bool_decide_eq_false_2 (_ ∧ model_covers m1 f)) by (by intros [_ ?]).
    rewrite (bool_decide_eq_false_2 (_ ∧ model_covers m2 f)); [done|].
    intros [_ ?]. by apply Hc, Hcov.
Qed.

Lemma evaluate_agree_witness :
  evaluate (Not (Binary And (Var "p") (Var "q76"))) [("p", true); ("q76", false)]
  = evaluate (Not (Binary And (Var "p") (Var "q76")))
             [("r", true); ("q76", false); ("p", true)].
Proof.
  apply evaluate_agree.
  - vm_compute; reflexivity.
  - vm_compute; reflexivity.
  - intros x Hx. simpl in Hx.
    apply elem_of_union in Hx as [Hx|Hx]; apply elem_of_singleton in Hx as ->; reflexivity.
Defined.

(** X3. [is_tautology] raises nothing on a well-formed formula and returns
    [True] exactly when the formula evaluates to [True] in every model over
    variable names that gives a value to each of its variables, not only in
    those that [all_models] lists. *)
Theorem is_tautology_all_models f :
  well_formed f = true →
  (∃ b, is_tautology f = Ok b)
  ∧ (is_tautology f = Ok true
     ↔ ∀ model, is_model model = true → model_covers model f →
                evaluate f model = Ok true).
Proof.
  intros Hwf. rewrite (is_tautology_Ok f Hwf). split; [by eexists|].
  split.
  - intros [= Hall] model Hm Hcov. rewrite forallb_forall in Hall.
    destruct (all_models_represent f model Hwf Hcov) as (m & Hin & Hsame).
    rewrite evaluate_Ok, <- Hsame by done. f_equal. by apply Hall, list_elem_of_In.
  - intros Hall. f_equal. apply forallb_forall. intros m Hm%list_elem_of_In.
    destruct (model_of_all_models f m Hwf Hm) as [Hmodel Hcov].
    specialize (Hall m Hmodel Hcov). rewrite evaluate_Ok in Hall by done.
    by injection Hall.
Qed.

Lemma is_tautology_all_models_witness :
  (∃ b, is_tautology (Var "p" ⟶ Var "p") = Ok b)
  ∧ (is_tautology (Var "p" ⟶ Var "p") = Ok true
     ↔ ∀ model, is_model model = true → model_covers model (Var "p" ⟶ Var "p") →
                evaluate (Var "p" ⟶ Var "p") model = Ok true).
Proof. apply (is_tautology_all_models (Var "p" ⟶ Var "p")). vm_compute; reflexivity. Defined.

(** X4. [is_satisfiable] raises nothing on a well-formed formula and returns
    [True] exactly when some model evaluates the formula to [True]. *)
Theorem is_satisfiable_some_model f :
  well_formed f = true →
  (∃ b, is_satisfiable f = Ok b)
  ∧ (is_satisfiable f = Ok true ↔ ∃ model, evaluate f model = Ok true).
Proof.
  intros Hwf. rewrite (is_satisfiable_Ok f Hwf). split; [by eexists|].
  split.
  - intros [= Hex]. apply existsb_exists in Hex as (m & Hm%list_elem_of_In & Htrue).
    exists m. destruct (model_of_all_models f m Hwf Hm) as [Hmodel Hcov].
    by rewrite evaluate_Ok, Htrue.
  - intros (model & Hev). apply evaluate_Ok_inv in Hev as (Hmodel & Hcov & Htrue).
    destruct (all_models_represent f model Hwf Hcov) as (m & Hin & Hsame).
    f_equal. apply existsb_exists. exists m.
    split; [by apply list_elem_of_In|congruence].
Qed.

Lemma is_satisfiable_some_model_witness :
  (∃ b, is_satisfiable (Binary And (Var "p") (Not (Var "p"))) = Ok b)
  ∧ (is_satisfiable (Binary And (Var "p") (Not (Var "p"))) = Ok true
     ↔ ∃ model, evaluate (Binary And (Var "p") (Not (Var "p"))) model = Ok true).
Proof.
  apply (is_satisfiable_some_model (Binary And (Var "p") (Not (Var "p")))).
  vm_compute; reflexivity.
Defined.

(** X5. [is_contradiction] of the negation of a formula returns what
    [is_tautology] of the formula returns, and [is_tautology] of the negation
    returns the negation of what [is_satisfiable] of the formula returns;
    the calls also raise alike. *)
Theorem is_tautology_negation f :
  is_contradiction (Not f) = is_tautology f
  ∧ is_tautology (Not f) = negb <$> is_satisfiable f.
Proof.
  unfold is_contradiction, is_tautology, is_satisfiable. cbn [variables].
  destruct (all_models (elements (variables f))) as [models|e]; [|done].
  cbn [mbind result_bind]. split.
  - apply py_all_ext. intros m. rewrite evaluate_Not.
    by destruct (evaluate f m) as [[|]|].
  - rewrite py_any_all.
    transitivity (py_all (fun m => b ← evaluate f m; mret (negb b)) models).
    + apply py_all_ext. intros m. rewrite evaluate_Not.
      by destruct (evaluate f m) as [[|]|].
    + by destruct (py_all _ models) as [[|]|].
Qed.

(** X6. A well-formed formula that is reported a tautology is reported
    satisfiable, because [all_models] yields at least one model. *)
Theorem is_tautology_is_satisfiable f :
  well_formed f = true → is_tautology f = Ok true → is_satisfiable f = Ok true.
Proof.
  intros Hwf. rewrite (is_tautology_Ok f Hwf), (is_satisfiable_Ok f Hwf).
  intros [= Hall]. f_equal.
  destruct (all_assignments (length (elements (variables f)))) as [|u l] eqn:Hu.
  { pose proof (all_assignments_length (length (elements (variables f)))) as Hlen.
    rewrite Hu in Hlen. simpl in Hlen.
    pose proof (Nat.pow_nonzero 2 (length (elements (variables f)))). lia. }
  simpl in *. apply andb_true_iff in Hall as [-> _]. done.
Qed.

Lemma is_tautology_is_satisfiable_witness :
  is_satisfiable (Var "p" ⟶ Var "p") = Ok true.
Proof.
  apply (is_tautology_is_satisfiable (Var "p" ⟶ Var "p")); vm_compute; reflexivity.
Defined.

(** X7. For a nonempty model over distinct variable names,
    [_synthesize_for_model] returns a conjunctive clause that evaluates to
    [True] in that model and, in any other model that gives values to the
    same names, to [True] exactly when the two models give every such name
    the same value. *)
Theorem synthesize_for_model_only_model model :
  is_model model = true →
  model ≠ [] →
  NoDup (Dict.keys model) →
  ∃ clause,
    synthesize_for_model model = Ok clause
    ∧ is_conjunctive_clause clause = true
    ∧ evaluate clause model = Ok true
    ∧ ∀ other,
        is_model other = true →
        (∀ x, x ∈ Dict.keys model → is_Some (Dict.get other x)) →
        evaluate clause other
        = Ok (bool_decide (Forall (fun x => Dict.get other x = Dict.get model x)
                                  (Dict.keys model))).
Proof.
  intros Hm Hne Hnd. exists (clause_of model).
  assert (∀ other,
            is_model other = true →
            (∀ x, x ∈ Dict.keys model → is_Some (Dict.get other x)) →
            evaluate (clause_of model) other
            = Ok (bool_decide (Forall (fun x => Dict.get other x = Dict.get model x)
                                      (Dict.keys model)))) as Hother.
  { intros other Ho Hcov. rewrite evaluate_Ok; [|done|].
    2: { apply model_covers_spec. intros x Hx. apply Hcov.
         rewrite variables_clause_of in Hx by done. by apply elem_of_list_to_set in Hx. }
    f_equal. rewrite holds_clause_of by done. apply eq_true_iff_eq.
    rewrite forallb_forall, bool_decide_eq_true, Forall_forall. split.
    - intros Hall x Hx. unfold Dict.keys in Hx.
      apply list_elem_of_fmap in Hx as ([k v] & -> & Hin). simpl.
      rewrite (get_elem_of model k v Hnd Hin).
      specialize (Hall (k, v) (proj1 (list_elem_of_In _ _) Hin)).
      unfold agrees_on in Hall. simpl in Hall.
      destruct (Hcov k) as [b Hb].
      { apply list_elem_of_fmap. by exists (k, v). }
      rewrite Hb in Hall |- *. simpl in Hall. apply Bool.eqb_prop in Hall. by subst.
    - intros Hall [k v] Hin%list_elem_of_In. unfold agrees_on. simpl.
      rewrite (Hall k), (get_elem_of model k v Hnd Hin).
      + simpl. by destruct v.
      + apply list_elem_of_fmap. by exists (k, v). }
  split_and!; [by apply synthesize_for_model_Ok|by apply is_conjunctive_clause_of| |done].
  rewrite Hother; [|done|by intros x Hx%get_Some_keys].
  f_equal. apply bool_decide_eq_true. by apply Forall_forall.
Qed.

Lemma synthesize_for_model_only_model_witness :
  ∃ clause,
    synthesize_for_model [("q", true); ("p", false)] = Ok clause
    ∧ is_conjunctive_clause clause = true
    ∧ evaluate clause [("q", true); ("p", false)] = Ok true
    ∧ ∀ other,
        is_model other = true →
        (∀ x, x ∈ Dict.keys [("q", true); ("p", false)] → is_Some (Dict.get other x)) →
        evaluate clause other
        = Ok (bool_decide
                (Forall (fun x => Dict.get other x
                                  = Dict.get [("q", true); ("p", false)] x)
                        (Dict.keys [("q", true); ("p", false)]))).
Proof.
  apply (synthesize_for_model_only_model [("q", true); ("p", false)]).
  - vm_compute; reflexivity.
  - discriminate.
  - apply (bool_decide_unpack _). vm_compute. exact I.
Defined.

(** X8. [synthesize] raises an assertion error when the list of variables
    is empty or has a name that is no variable name, and raises nothing
    else; in every other case, whatever the values and however many, it
    returns a formula in disjunctive normal form over the given variables. *)
Theorem synthesize_dnf_or_assertion vs values :
  match synthesize vs values with
  | Ok f =>
      vs ≠ [] ∧ forallb is_variable vs = true
      ∧ is_dnf f = true ∧ variables f ⊆ list_to_set vs
  | Raise e => e = AssertionError ∧ (vs = [] ∨ forallb is_variable vs = false)
  end.
Proof.
  unfold synthesize. destruct (decide (vs = [])) as [->|Hne]; [simpl; by eauto|].
  rewrite assert_true_bind by (by destruct vs).
  destruct (forallb is_variable vs) eqn:Hvars.
  2: { unfold all_models. rewrite Hvars. simpl. by eauto. }
  rewrite all_models_Ok by done. cbn [mbind result_bind].
  set (models := (fun i => fill_model (length vs) i 0 vs []) <$> _).
  assert (∀ m, m ∈ models →
            is_model m = true ∧ m ≠ [] ∧ ∀ x, x ∈ Dict.keys m → x ∈ vs) as Hmodels.
  { intros m (i & -> & _)%list_elem_of_fmap.
    destruct (fill_model_facts vs i Hne Hvars) as [? ?]. split_and!; [done..|].
    intros x [Hx|Hx]%keys_fill_model; [by apply elem_of_nil in Hx|done]. }
  rewrite synthesize_clauses_Ok.
  2: { intros m b Hin%elem_of_zip_l. by destruct (Hmodels m Hin) as (? & ? & _). }
  cbn [mbind result_bind].
  assert (∀ m, m ∈ selected (zip models values) →
            is_conjunctive_clause (clause_of m) = true
            ∧ variables (clause_of m) ⊆ list_to_set vs) as Hsel.
  { intros m Hm%elem_of_selected%elem_of_zip_l.
    destruct (Hmodels m Hm) as (_ & Hnil & Hkeys).
    split; [by apply is_conjunctive_clause_of|].
    rewrite variables_clause_of by done. intros x Hx%elem_of_list_to_set.
    by apply elem_of_list_to_set, Hkeys. }
  destruct (selected (zip models values)) as [|s ss]; simpl.
  - clear Hmodels Hsel. subst models. destruct vs as [|v0 vs']; [done|]. simpl.
    split_and!; [done..|]. set_solver.
  - split_and!; [done..| |].
    + apply is_dnf_foldl_Or.
      * apply is_conjunctive_clause_dnf, Hsel. by left.
      * apply Forall_fmap, Forall_forall. intros m Hm. apply Hsel. by right.
    + rewrite variables_foldl_Or. intros x [Hx|Hx]%elem_of_union.
      * revert x Hx. apply Hsel. by left.
      * apply elem_of_union_list in Hx as (X & HX & Hx).
        apply list_elem_of_fmap in HX as (c & -> & Hc).
        apply list_elem_of_fmap in Hc as (m & -> & Hm).
        revert x Hx. apply Hsel. by right.
Qed.

(** X9. [synthesize] reads the values through [zip]: values after the first
    [2 ^ n] are ignored, and missing values count as [False]. *)
Theorem synthesize_resize vs values :
  synthesize vs values = synthesize vs (resize (2 ^ length vs) false values).
Proof.
  unfold synthesize. destruct (assert (0 <? length vs)) as [[]|e]; [|done].
  cbn [mbind result_bind].
  destruct (all_models vs) as [models|e] eqn:Hmodels; [|done].
  cbn [mbind result_bind].
  by rewrite <- (length_all_models vs models Hmodels), <- synthesize_clauses_resize.
Qed.

(** X10. For every list of variable names, also one that repeats a name,
    [all_models] yields [2 ^ n] models; each has exactly the given names as
    its keys, each once, and model number [i] gives a name the bit of [i]
    that belongs to the last position of the name in the list. *)
Theorem all_models_repeated_names vs :
  Forall (fun v => is_variable v = true) vs →
  ∃ models,
    all_models vs = Ok models
    ∧ length models = 2 ^ length vs
    ∧ ∀ i m, models !! i = Some m →
        NoDup (Dict.keys m)
        ∧ (∀ x, x ∈ Dict.keys m ↔ x ∈ vs)
        ∧ ∀ k v, vs !! k = Some v → (∀ k', k < k' → vs !! k' ≠ Some v) →
            Dict.get m v = Some (Z.testbit (Z.of_nat i) (Z.of_nat (length vs - 1 - k))).
Proof.
  intros Hvars.
  assert (forallb is_variable vs = true) as Hvars'.
  { apply forallb_forall. rewrite Forall_forall in Hvars.
    intros v Hv. by apply Hvars, list_elem_of_In. }
  eexists. split; [by apply all_models_Ok|]. split.
  { eapply length_all_models. by apply all_models_Ok. }
  intros i m Hi. rewrite list_lookup_fmap in Hi.
  destruct (seqZ 0 (2 ^ Z.of_nat (length vs)) !! i) as [z|] eqn:Hz; [|done].
  apply lookup_seqZ in Hz as [-> _]. injection Hi as <-. split_and!.
  - apply NoDup_keys_fill_model. constructor.
  - intros x. rewrite keys_fill_model. split; [|by right].
    intros [Hx|Hx]; [by apply elem_of_nil in Hx|done].
  - intros k v Hk Hlast. by rewrite (get_fill_model_last _ _ vs 0 [] k v Hk Hlast).
Qed.

Lemma all_models_repeated_names_witness :
  ∃ models,
    all_models ["p"; "q"; "p"] = Ok models
    ∧ length models = 2 ^ 3
    ∧ ∀ i m, models !! i = Some m →
        NoDup (Dict.keys m)
        ∧ (∀ x, x ∈ Dict.keys m ↔ x ∈ ["p"; "q"; "p"])
        ∧ ∀ k v, ["p"; "q"; "p"] !! k = Some v →
            (∀ k', k < k' → ["p"; "q"; "p"] !! k' ≠ Some v) →
            Dict.get m v = Some (Z.testbit (Z.of_nat i) (Z.of_nat (3 - 1 - k))).
Proof.
  apply (all_models_repeated_names ["p"; "q"; "p"]). repeat constructor.
Defined.

(** X11. The connectives [-&], [-|], [->], [<->] and [+] evaluate, in every
    model, as the formulas that define them through [~], [&] and [|] do; the
    calls also raise alike. *)
Theorem evaluate_derived_operators a b model :
  evaluate (Binary Nand a b) model = evaluate (Not (Binary And a b)) model
  ∧ evaluate (Binary Nor a b) model = evaluate (Not (Binary Or a b)) model
  ∧ evaluate (Binary Implies a b) model = evaluate (Binary Or (Not a) b) model
  ∧ evaluate (Binary Iff a b) model = evaluate (Not (Binary Xor a b)) model
  ∧ evaluate (Binary Xor a b) model
    = evaluate (Binary And (Binary Or a b) (Binary Nand a b)) model.
Proof.
  assert (∀ f g, variables f = variables g → holds model f = holds model g →
                 evaluate f model = evaluate g model) as Hsame.
  { intros f g Hvars Hholds. rewrite !evaluate_outcome, Hholds.
    assert (model_covers model f ↔ model_covers model g) as Hcov.
    { unfold model_covers. by rewrite Hvars. }
    destruct (decide (is_model model = true ∧ model_covers model f)) as [[Hm Hc]|Hn].
    - rewrite (bool_decide_eq_true_2 (_ ∧ model_covers model f)) by done.
      by rewrite (bool_decide_eq_true_2 (_ ∧ model_covers model g))
        by (split; [done|by apply Hcov]).
    - rewrite (bool_decide_eq_false_2 (_ ∧ model_covers model f)) by done.
      rewrite (bool_decide_eq_false_2 (_ ∧ model_covers model g)); [done|].
      intros [Hm Hc]. apply Hn. split; [done|by apply Hcov]. }
  split_and!; apply Hsame; simpl; try done; try set_solver;
    by destruct (holds model a), (holds model b).
Qed.

(** ** [soundness.py] *)

(** X12. For a specialization of a well-formed general rule and a model
    that gives a value to every variable of the specialization,
    [rule_nonsoundness_from_specialization_nonsoundness] returns a model
    over exactly the variables of the general rule in which each formula of
    the general rule evaluates as the matching formula of the specialization
    does in the given model.  The assertion on [evaluate_inference] rejects
    no model. *)
Theorem rule_nonsoundness_transfers general specialization model :
  specialization_of specialization general →
  (∀ g, g ∈ rule_formulas general → well_formed g = true) →
  is_model model = true →
  (∀ g, g ∈ rule_formulas specialization → model_covers model g) →
  ∃ new_model,
    rule_nonsoundness_from_specialization_nonsoundness general specialization model
    = Ok new_model
    ∧ (∀ x, x ∈ Dict.keys new_model ↔ x ∈ rule_variables general)
    ∧ Forall2 (fun g0 g => evaluate g0 new_model = evaluate g model)
              (rule_formulas general) (rule_formulas specialization).
Proof.
  intros Hspec Hwf Hm Hcov.
  destruct (rule_nonsoundness_correct general specialization model Hspec Hm Hcov)
    as (σ & _ & Hspecialize & Hrun & Hkeys & Hholds).
  eexists. split; [exact Hrun|]. split; [exact Hkeys|].
  rewrite <- Hspecialize, rule_formulas_specialize.
  apply Forall2_fmap_r, Forall_Forall2_diag, Forall_forall. intros g0 Hg0.
  rewrite (evaluate_new_model general σ model g0 Hwf Hg0 Hkeys), Hholds by done.
  symmetry. apply evaluate_Ok; [done|].
  apply Hcov. rewrite <- Hspecialize, rule_formulas_specialize.
  apply list_elem_of_fmap. by exists g0.
Qed.

Lemma rule_nonsoundness_transfers_witness :
  ∃ new_model,
    rule_nonsoundness_from_specialization_nonsoundness MP
      (mkInferenceRule [Var "x"; Var "x" ⟶ Not (Var "y")] (Not (Var "y")))
      [("x", true); ("y", true)]
    = Ok new_model
    ∧ (∀ x, x ∈ Dict.keys new_model ↔ x ∈ rule_variables MP)
    ∧ Forall2 (fun g0 g => evaluate g0 new_model = evaluate g [("x", true); ("y", true)])
              (rule_formulas MP)
              (rule_formulas
                 (mkInferenceRule [Var "x"; Var "x" ⟶ Not (Var "y")] (Not (Var "y")))).
Proof.
  apply rule_nonsoundness_transfers.
  - apply is_specialization_of_spec. vm_compute; reflexivity.
  - apply Forall_forall. apply (bool_decide_unpack _). vm_compute. exact I.
  - vm_compute; reflexivity.
  - apply Forall_forall. apply (bool_decide_unpack _). vm_compute. exact I.
Defined.

(** X13. When every line of a valid proof evaluates to [True] in the model,
    [nonsound_rule_of_nonsound_proof] leaves its loop without [return]: it
    returns [None] and raises nothing, because [evaluate_inference] makes the
    assertion on the statement pass and no assertion follows the loop. *)
Theorem nonsound_rule_of_nonsound_proof_None proof model :
  is_valid proof = true →
  (∀ line, line ∈ lines proof → evaluate (formula line) model = Ok true) →
  nonsound_rule_of_nonsound_proof proof model = Ok None.
Proof.
  intros Hv Htrue. unfold nonsound_rule_of_nonsound_proof.
  rewrite assert_true_bind by done.
  destruct (valid_last_line _ Hv) as [Hn Hlast].
  destruct (lines proof !! (length (lines proof) - 1)) as [l|] eqn:Hl; [|done].
  destruct (evaluate_Ok_inv _ _ _ (Htrue l (list_elem_of_lookup_2 _ _ _ Hl)))
    as (Hm & _ & _).
  unfold evaluate_inference. rewrite assert_true_bind by done. simpl.
  by apply nonsound_rule_loop_all_true.
Qed.

Lemma nonsound_rule_of_nonsound_proof_None_witness :
  nonsound_rule_of_nonsound_proof negation_proof [("q", false)] = Ok None.
Proof.
  apply nonsound_rule_of_nonsound_proof_None.
  - vm_compute; reflexivity.
  - apply Forall_forall. apply (bool_decide_unpack _). vm_compute. exact I.
Defined.

(** ** [deduction.py] *)

(** X14. For valid proofs of a formula and of its negation from the same
    assumptions by the same rules, [prove_from_opposites] returns a valid
    proof of the given conclusion from these assumptions, by these rules
    together with [MP] and [I2]; it has the lines of both proofs and three
    more. *)
Theorem prove_from_opposites_valid proof_of_affirmation proof_of_negation conclusion' :
  is_valid proof_of_affirmation = true →
  is_valid proof_of_negation = true →
  assumptions (statement proof_of_affirmation) = assumptions (statement proof_of_negation) →
  Not (conclusion (statement proof_of_affirmation)) = conclusion (statement proof_of_negation) →
  rules proof_of_affirmation = rules proof_of_negation →
  ∃ proof',
    prove_from_opposites proof_of_affirmation proof_of_negation conclusion' = Ok proof'
    ∧ is_valid proof' = true
    ∧ statement proof'
      = mkInferenceRule (assumptions (statement proof_of_affirmation)) conclusion'
    ∧ rules proof' = rules proof_of_affirmation ∪ {[ MP; I2 ]}
    ∧ length (lines proof')
      = length (lines proof_of_negation) + length (lines proof_of_affirmation) + 3.
Proof.
  intros Hva Hvn HA HC HR.
  destruct (combine_proofs_correct proof_of_negation proof_of_affirmation conclusion' I2)
    as [Hrun Hvalid]; [done|done|done|done| |].
  { rewrite <- HC. apply I2_instance. }
  eexists. split_and!; [|exact Hvalid|..].
  - unfold prove_from_opposites.
    rewrite !assert_true_bind; [exact Hrun|by apply bool_decide_eq_true..|done|done].
  - simpl. by rewrite HA.
  - simpl. by rewrite HR.
  - simpl. rewrite !length_app, length_fmap. simpl. lia.
Qed.

Lemma prove_from_opposites_valid_witness :
  ∃ proof',
    prove_from_opposites affirmation_proof negation_proof (Var "r") = Ok proof'
    ∧ is_valid proof' = true
    ∧ statement proof' = mkInferenceRule [Not (Var "q")] (Var "r")
    ∧ rules proof' = rules affirmation_proof ∪ {[ MP; I2 ]}
    ∧ length (lines proof') = 1 + 1 + 3.
Proof.
  apply (prove_from_opposites_valid affirmation_proof negation_proof (Var "r"));
    try reflexivity; vm_compute; reflexivity.
Defined.

(** X15. [remove_assumption] raises nothing but an assertion error, and it
    raises one exactly when the proof is not valid, has no assumption, or
    has a rule with assumptions other than Modus Ponens: on a proof that
    passes the three assertions, the unpacking of the two line numbers and
    the lookups in the proof and in the mapping all succeed. *)
Theorem remove_assumption_only_assertions proof :
  match remove_assumption proof with
  | Ok _ =>
      is_valid proof = true
      ∧ assumptions (statement proof) ≠ []
      ∧ ∀ rule, rule ∈ rules proof → rule = MP ∨ assumptions rule = []
  | Raise e =>
      e = AssertionError
      ∧ ¬ (is_valid proof = true
           ∧ assumptions (statement proof) ≠ []
           ∧ ∀ rule, rule ∈ rules proof → rule = MP ∨ assumptions rule = [])
  end.
Proof.
  destruct (is_valid proof) eqn:Hv.
  2: { unfold remove_assumption. rewrite Hv. simpl. split; [done|]. by intros [? _]. }
  destruct (assumptions (statement proof)) as [|a A] eqn:HA.
  { unfold remove_assumption. rewrite Hv, HA. simpl. split; [done|]. by intros (_ & ? & _). }
  destruct (forallb rule_allowed (elements (rules proof))) eqn:Hrules.
  2: { unfold remove_assumption. rewrite Hv, HA, Hrules. simpl. split; [done|].
       intros (_ & _ & Hall).
       assert (forallb rule_allowed (elements (rules proof)) = true) as Ht.
       { apply forallb_elements_true. intros rule Hr. by apply rule_allowed_spec, Hall. }
       congruence. }
  rewrite forallb_elements_true in Hrules.
  destruct (remove_assumption_correct proof Hv)
    as (gamma & psi & new_lines & _ & -> & _); [rewrite HA; simpl; lia|done|].
  split_and!; [done|done|].
  intros rule Hr. by apply rule_allowed_spec, Hrules.
Qed.

(** X16. The proof that [remove_assumption] returns has one line for every
    assumption line of the given proof that carries the removed assumption
    and three lines for every other line. *)
Theorem remove_assumption_length proof gamma psi :
  is_valid proof = true →
  assumptions (statement proof) = gamma ++ [psi] →
  (∀ rule, rule ∈ rules proof → rule = MP ∨ assumptions rule = []) →
  ∃ proof',
    remove_assumption proof = Ok proof'
    ∧ length (lines proof')
      + 2 * length (filter (fun line => formula line = psi ∧ is_assumption line)
                           (lines proof))
      = 3 * length (lines proof).
Proof.
  intros Hv Hassum Hrules.
  destruct (remove_assumption_lines proof)
    as (gamma' & psi' & new_lines & mapping & Hsplit & Hloop & Hrun & _).
  - done.
  - rewrite Hassum, length_app. simpl. lia.
  - intros rule Hr. by apply rule_allowed_spec, Hrules.
  - rewrite Hassum in Hsplit. apply app_inj_tail in Hsplit as [<- <-].
    eexists. split; [exact Hrun|]. simpl.
    apply remove_assumption_loop_length in Hloop. simpl in Hloop. lia.
Qed.

Lemma remove_assumption_length_witness :
  ∃ proof',
    remove_assumption sample_proof = Ok proof'
    ∧ length (lines proof')
      + 2 * length (filter (fun line => formula line = Not (Var "q") ∧ is_assumption line)
                           (lines sample_proof))
      = 3 * length (lines sample_proof).
Proof.
  apply (remove_assumption_length sample_proof [] (Not (Var "q"))).
  - vm_compute; reflexivity.
  - reflexivity.
  - intros rule Hr. apply rule_allowed_spec.
    revert rule Hr. apply forallb_elements_true. vm_compute; reflexivity.
Defined.

(** X17. For every line of the given proof, with formula [phi], the proof
    that [remove_assumption] returns has a line with the formula
    [psi ⟶ phi], where [psi] is the removed assumption. *)
Theorem remove_assumption_keeps_lines proof gamma psi :
  is_valid proof = true →
  assumptions (statement proof) = gamma ++ [psi] →
  (∀ rule, rule ∈ rules proof → rule = MP ∨ assumptions rule = []) →
  ∃ proof',
    remove_assumption proof = Ok proof'
    ∧ ∀ line, line ∈ lines proof →
        ∃ line', line' ∈ lines proof' ∧ formula line' = psi ⟶ formula line.
Proof.
  intros Hv Hassum Hrules.
  destruct (remove_assumption_lines proof)
    as (gamma' & psi' & new_lines & mapping & Hsplit & _ & Hrun & Hinv).
  - done.
  - rewrite Hassum, length_app. simpl. lia.
  - intros rule Hr. by apply rule_allowed_spec, Hrules.
  - rewrite Hassum in Hsplit. apply app_inj_tail in Hsplit as [<- <-].
    eexists. split; [exact Hrun|]. simpl.
    intros line Hline. apply list_elem_of_lookup in Hline as [i Hi].
    destruct (inv_mapping _ _ _ _ _ _ _ Hinv i line) as (m & _ & Hm);
      [by eapply lookup_lt_Some|done|].
    destruct (new_lines !! m) as [line'|] eqn:Hline'; [|done].
    exists line'. split; [by eapply list_elem_of_lookup_2|]. by injection Hm.
Qed.

Lemma remove_assumption_keeps_lines_witness :
  ∃ proof',
    remove_assumption sample_proof = Ok proof'
    ∧ ∀ line, line ∈ lines sample_proof →
        ∃ line', line' ∈ lines proof' ∧ formula line' = Not (Var "q") ⟶ formula line.
Proof.
  apply (remove_assumption_keeps_lines sample_proof [] (Not (Var "q"))).
  - vm_compute; reflexivity.
  - reflexivity.
  - intros rule Hr. apply rule_allowed_spec.
    revert rule Hr. apply forallb_elements_true. vm_compute; reflexivity.
Defined.

(** X18. [prove_by_way_of_contradiction] raises nothing but an assertion
    error, and it raises one exactly when the proof is not valid, does not
    prove [~(p->p)], has no last assumption of the form [~phi], or has a
    rule with assumptions other than Modus Ponens. *)
Theorem prove_by_way_of_contradiction_only_assertions proof :
  match prove_by_way_of_contradiction proof with
  | Ok _ =>
      is_valid proof = true
      ∧ conclusion (statement proof) = Not (Var "p" ⟶ Var "p")
      ∧ (∃ gamma phi, assumptions (statement proof) = gamma ++ [Not phi])
      ∧ ∀ rule, rule ∈ rules proof → rule = MP ∨ assumptions rule = []
  | Raise e =>
      e = AssertionError
      ∧ ¬ (is_valid proof = true
           ∧ conclusion (statement proof) = Not (Var "p" ⟶ Var "p")
           ∧ (∃ gamma phi, assumptions (statement proof) = gamma ++ [Not phi])
           ∧ ∀ rule, rule ∈ rules proof → rule = MP ∨ assumptions rule = [])
  end.
Proof.
  unfold prove_by_way_of_contradiction.
  destruct (is_valid proof) eqn:Hv; simpl.
  2: { split; [done|]. by intros [? _]. }
  case_bool_decide as Hconcl; simpl.
  2: { split; [done|]. by intros (_ & ? & _). }
  destruct (last (assumptions (statement proof))) as [last_assumption|] eqn:Hlast.
  2: { apply last_None in Hlast. rewrite Hlast. simpl. split; [done|].
       intros (_ & _ & (gamma & phi & Hsplit) & _). by destruct gamma. }
  pose proof (take_last_split _ _ Hlast) as Hsplit.
  assert ((0 <? length (assumptions (statement proof))) = true) as Hlen.
  { apply Nat.ltb_lt. rewrite Hsplit, length_app. simpl. lia. }
  rewrite Hlen. simpl.
  destruct last_assumption as [x|c|phi|op g h];
    try (split; [done|]; intros (_ & _ & (gamma & phi' & Hsplit') & _);
         rewrite Hsplit' in Hlast; by rewrite last_snoc in Hlast).
  destruct (forallb rule_allowed (elements (rules proof))) eqn:Hrules; simpl.
  2: { split; [done|]. intros (_ & _ & _ & Hall).
       assert (forallb rule_allowed (elements (rules proof)) = true) as Ht.
       { apply forallb_elements_true. intros rule Hr. by apply rule_allowed_spec, Hall. }
       congruence. }
  rewrite forallb_elements_true in Hrules.
  destruct (remove_assumption_correct proof Hv)
    as (gamma & psi & new_lines & _ & -> & _); [by apply Nat.ltb_lt|done|].
  simpl. split_and!; [done|done|by eexists _, _|].
  intros rule Hr. by apply rule_allowed_spec, Hrules.
Qed.
